(** * Stateful-input core of filebeat: the cursor input manager

    A shallow embedding of
      - filebeat/input/v2/input.go                (package v2: Context, FIPSAwareInput)
      - filebeat/input/v2/input-cursor/input.go   (package cursor: managedInput,
                                                    newInputACKHandler)
      - filebeat/beater/crawler_fips.go           (checkFIPSCapability)

    Conventions.
      - Go strings are [string]; an [error] value is [option error], [None]
        being nil; [uint] is [N] with its wrap-around written out.
      - A function that can panic returns [Go A]: the calls it made to its
        collaborators and either its result or the panic that left it.
        [defer] and [recover] are combinators on [Go A].
      - The source-type implementation, the pipeline and the resource store
        are parameters ([Input], [Env]): every property is stated for all of
        their answers.
      - The goroutines started through [unison.MultiErrGroup] are a step
        relation over the state they share; a property of [Test] or [Run]
        holds for every interleaving.  [grp.Go(fn)] runs [fn] in a goroutine
        and appends its error, if not nil, to the slice of the group;
        [grp.Wait()] returns that slice once all goroutines are done. *)

From stdpp Require Import base numbers list strings relations gmap.

Local Open Scope string_scope.
Local Open Scope nat_scope.
Local Open Scope list_scope.

(** ** Go errors *)

(** The error values this layer builds or passes on.  [ErrorsNew] stands for
    any error produced by a collaborator, [ErrorfW] for
    [fmt.Errorf(prefix + "%w", inner)] and [ErrorsJoin] for the value
    [errors.Join] returns for a list with at least one non-nil error. *)
#[warnings="-register-all"]
Inductive error : Type :=
  | ErrorsNew (msg : string)
  | ErrorfW (prefix : string) (inner : error)
  | ErrorsJoin (errs : list error).

(** The line feed, Go's ["\n"]. *)
Definition newline : string := String (Ascii.ascii_of_nat 10) "".

(** The message of a joined error: the messages of its errors, one per
    line. *)
Fixpoint join_lines (ls : list string) : string :=
  match ls with
  | [] => ""
  | [l] => l
  | l :: rest => l +:+ newline +:+ join_lines rest
  end.

(** [err.Error()] *)
Fixpoint Error (e : error) : string :=
  match e with
  | ErrorsNew msg => msg
  | ErrorfW prefix inner => prefix +:+ Error inner
  | ErrorsJoin errs => join_lines (map Error errs)
  end.

(** [errors.Unwrap] for the single-error wrapper. *)
Definition Unwrap (e : error) : option error :=
  match e with
  | ErrorfW _ inner => Some inner
  | _ => None
  end.

(** [errors.Join(errs...)] on a slice holding only non-nil errors: nil for
    the empty slice, the joined error otherwise. *)
Definition errors_Join (errs : list error) : option error :=
  match errs with
  | [] => None
  | _ => Some (ErrorsJoin errs)
  end.

(** ** Acknowledgment handler (input-cursor/input.go, newInputACKHandler) *)

Module ACK.

(** A [*updateOp] is identified by its address. *)
Definition updateOp := nat.

(** The dynamic contents of one [interface{}] slot of [private]: the nil
    interface, a [*updateOp], or a value of any other dynamic type. *)
Inductive iface : Type :=
  | INil
  | IUpdateOp (op : updateOp)
  | IOther (dyn : string).

(** [uint] is 64 bits wide; [n++] wraps. *)
Definition uint_modulus : N := 2 ^ 64.
Definition uint_incr (n : N) : N := ((n + 1) mod uint_modulus)%N.

(** [len] of a Go slice fits a (64-bit, signed) [int]. *)
Definition MaxInt : N := 2 ^ 63 - 1.
Definition slice_len_ok {A} (s : list A) : Prop :=
  (N.of_nat (length s) <= MaxInt)%N.

(** The [for i := 0; i < len(private); i++] loop, started at index [i] on the
    remaining slots, threading the two locals [n] and [last]. *)
Fixpoint scan (rest : list iface) (i : nat) (n : N) (last : nat) : N * nat :=
  match rest with
  | [] => (n, last)
  | current :: rest' =>
      match current with
      | INil => scan rest' (S i) n last                  (* current == nil: continue *)
      | IOther _ => scan rest' (S i) n last              (* !ok: continue *)
      | IUpdateOp _ => scan rest' (S i) (uint_incr n) i  (* n++; last = i *)
      end
  end.

(** What one invocation of the callback does: the [Execute] calls it makes,
    or a run-time panic (failed type assertion, index out of range). *)
Inductive call : Type :=
  | Execute (op : updateOp) (n : N).

Inductive outcome : Type :=
  | Panics
  | Returns (calls : list call).

Definition inputACKHandler (acked : Z) (private : list iface) : outcome :=
  let '(n, last) := scan private 0 0%N 0 in
  if (n =? 0)%N then Returns []
  else
    match private !! last with
    | Some (IUpdateOp op) => Returns [Execute op n]
    | Some _ => Panics          (* private[last].( *updateOp) fails *)
    | None => Panics            (* index out of range *)
    end.

(** Vocabulary of the specification. *)
Definition is_updateOp (p : iface) : bool :=
  match p with IUpdateOp _ => true | _ => false end.

Fixpoint count_updateOps (private : list iface) : nat :=
  match private with
  | [] => 0
  | p :: rest => (if is_updateOp p then 1 else 0) + count_updateOps rest
  end.

(** [op] sits at index [i] and no later slot holds an update operation. *)
Definition highest_updateOp (private : list iface) (i : nat) (op : updateOp) : Prop :=
  private !! i = Some (IUpdateOp op) ∧
  ∀ j p, i < j → private !! j = Some p → is_updateOp p = false.

Definition no_updateOp (private : list iface) : Prop :=
  ∀ p, p ∈ private → is_updateOp p = false.

(** Index of the last update operation among the slots, if any. *)
Fixpoint last_index (private : list iface) : option nat :=
  match private with
  | [] => None
  | p :: rest =>
      match last_index rest with
      | Some k => Some (S k)
      | None => if is_updateOp p then Some 0 else None
      end
  end.

(** The update operations of a batch, in order; what a run of the callback
    hands to [Execute]: the sum of the arguments [n], and the operation of
    the last call. *)
Definition updateOps (private : list iface) : list updateOp :=
  omap (λ p, match p with IUpdateOp op => Some op | _ => None end) private.

Definition executed_n (o : outcome) : N :=
  match o with
  | Panics => 0%N
  | Returns calls => foldr (λ c acc, match c with Execute _ n => (n + acc)%N end) 0%N calls
  end.

Definition executed_last (o : outcome) : option updateOp :=
  match o with
  | Panics => None
  | Returns calls => last (map (λ c, match c with Execute op _ => op end) calls)
  end.

End ACK.

(** ** Package v2 (filebeat/input/v2/input.go) *)

Module v2.

(** [Canceler]: the shutdown signal handed to an input.  The only way this
    layer builds one is [context.WithCancel] over the signal it was given. *)
Inductive Canceler : Type :=
  | BeatCanceler (id : nat)
  | WithCancel (parent : Canceler).

(** [*logp.Logger], as the key/value labels added through [With]. *)
Record logp_Logger : Type := { labels : list (string * string) }.

Definition With (l : logp_Logger) (key value : string) : logp_Logger :=
  {| labels := labels l ++ [(key, value)] |}.

(** [beat.Info] is copied as a whole; two of its fields tell values apart. *)
Record Info : Type := { Beat : string; Version : string }.

(** [*monitoring.Registry]: the root the Beat provides, or the registry
    [inputmon.NewMetricsRegistry] creates on a parent for an input id. *)
Inductive Registry : Type :=
  | RootRegistry (id : nat)
  | InputRegistry (inputID name : string) (parent : Registry).

(** [beat.PipelineConnector], possibly wrapped by [pipetool.WithClientConfigEdit]
    so that clients report to the listener of a registry. *)
Inductive PipelineConnector : Type :=
  | Pipeline (id : nat)
  | WithClientListener (reg : Registry) (inner : PipelineConnector).

(** [status.StatusReporter] is an interface value, nil under standalone runs. *)
Definition StatusReporter_t : Type := option nat.

Record Context : Type := {
  Logger : logp_Logger;
  ID : string;
  IDWithoutName : string;
  Name : string;
  Agent : Info;
  Cancelation : Canceler;
  StatusReporter : StatusReporter_t;
  MetricsRegistry : Registry;
}.

Record TestContext : Type := {
  TestLogger : logp_Logger;
  TestAgent : Info;
  TestCancelation : Canceler;
}.

(** [PrepareInputMetrics]: the new registry and the wrapped connector (the
    third result, the unregister function, is the deferred [cancelMetrics]). *)
Definition PrepareInputMetrics (inputID name : string) (parent : Registry)
    (pconnector : PipelineConnector) (log : logp_Logger) : Registry * PipelineConnector :=
  let reg := InputRegistry inputID name parent in
  (reg, WithClientListener reg pconnector).

(** A value that implements [FIPSAwareInput] answers [IsFIPSCapable]. *)
Record FIPSAwareInput : Type := { IsFIPSCapable : bool }.

End v2.

(** ** Package cursor (filebeat/input/v2/input-cursor/input.go) *)

Module cursor.

(** [Source]: anything with a [Name()]. *)
Record Source : Type := { Name : string }.

(** Handles of the persistent store, a locked resource and a pipeline client. *)
Definition store_t : Type := nat.
Record resource : Type := { key : string }.
Definition Client : Type := nat.
Definition Duration : Type := Z.

Record Cursor : Type := { cursor_store : store_t; cursor_resource : resource }.
Definition makeCursor (st : store_t) (r : resource) : Cursor :=
  {| cursor_store := st; cursor_resource := r |}.

Record cursorPublisher : Type := {
  canceler : v2.Canceler;
  client : Client;
  cursor_ : Cursor;
}.

(** The value handed to [panic]; [format_v] is what [%+v] prints for it. *)
Inductive PanicValue : Type :=
  | PanicString (s : string)
  | PanicError (e : error).

Definition format_v (v : PanicValue) : string :=
  match v with
  | PanicString s => s
  | PanicError e => Error e
  end.

(** How a call ends: it returns a value, or it panics with a value; [stack]
    is what [debug.Stack()] reports while that panic unwinds. *)
Inductive exec (A : Type) : Type :=
  | Normal (a : A)
  | Panicking (v : PanicValue) (stack : string).
Arguments Normal {A} a.
Arguments Panicking {A} v stack.

(** The calls into collaborators, in the order they happen. *)
Inductive event : Type :=
  | EvConnectWith (pipeline : v2.PipelineConnector)
  | EvClose (c : Client)
  | EvLocked (r : resource)
  | EvReleaseResource (r : resource)
  | EvUpdateTTL (st : store_t) (r : resource) (ttl : Duration)
  | EvInputRun (ctx : v2.Context) (source : Source)
  | EvInputTest (source : Source)
  | EvLogError (log : v2.logp_Logger) (msg : string)
  | EvCancel
  | EvCancelMetrics (inputID : string).

(** The resources released, and the resources locked, in a trace of calls. *)
Definition released (t : list event) : list resource :=
  omap (λ e, match e with EvReleaseResource r => Some r | _ => None end) t.

Definition locked (t : list event) : list resource :=
  omap (λ e, match e with EvLocked r => Some r | _ => None end) t.

(** A Go function body: the calls it made and how it ended. *)
Definition Go (A : Type) : Type := list event * exec A.

Definition ret {A} (a : A) : Go A := ([], Normal a).
Definition emit (e : event) : Go unit := ([e], Normal tt).
Definition bind {A B} (m : Go A) (f : A → Go B) : Go B :=
  match m with
  | (t, Normal a) => let '(t', r) := f a in (t ++ t', r)
  | (t, Panicking v stack) => (t, Panicking v stack)
  end.
Notation "m >> k" := (bind m (λ _, k)) (at level 65, right associativity).

(** [defer f()] around the rest of the body: [f] runs when the body is left,
    by return or by panic. *)
Definition defer {A} (deferred : event) (body : Go A) : Go A :=
  (body.1 ++ [deferred], body.2).

(** [defer func() { if v := recover(); v != nil { ... } }()] with a named
    result: a panic of the body is stopped and the handler sets the result
    ([recover] yields a non-nil value for every panic). *)
Definition recover {A} (handler : PanicValue → string → Go A) (body : Go A) : Go A :=
  match body with
  | (t, Normal a) => (t, Normal a)
  | (t, Panicking v stack) => let '(t', r) := handler v stack in (t ++ t', r)
  end.

(** The source-type implementation: the [Input] interface of this package,
    and whether its dynamic type also implements [v2.FIPSAwareInput]. *)
Record Input : Type := {
  InputName : string;
  Test : Source → v2.TestContext → exec (option error);
  Run : v2.Context → Source → Cursor → cursorPublisher → exec (option error);
  asFIPSAwareInput : option v2.FIPSAwareInput;
}.

(** The fields of [InputManager] this file reads. *)
Record InputManager : Type := { Type_ : string; store : store_t }.

Record managedInput : Type := {
  manager : InputManager;
  userID : string;
  sources : list Source;
  input : Input;
  cleanTimeout : Duration;
}.

(** [beat.ClientConfig], as far as [runSource] fills it in: the listener is
    the acknowledgment handler of module [ACK], built for a logger. *)
Inductive EventListener_t : Type :=
  | newInputACKHandler (log : v2.logp_Logger).

Record ClientConfig : Type := { EventListener : EventListener_t }.

(** What the collaborators answer: [pipeline.ConnectWith] and
    [inp.manager.lock] each give a handle or an error.  The answer is a
    function of the call; source names are unique within an input, so the
    calls of two workers differ (in the context, which holds the name) and
    may be answered differently.  Every property below is stated for all
    such answers. *)
Record Env : Type := {
  ConnectWith : v2.PipelineConnector → ClientConfig → Client + error;
  lock : v2.Context → string → resource + error;
}.

(** The configuration [runSource] connects with. *)
Definition clientConfig (ctx : v2.Context) : ClientConfig :=
  {| EventListener := newInputACKHandler (v2.Logger ctx) |}.

Definition createSourceID (inp : managedInput) (s : Source) : string :=
  if negb (String.eqb (userID inp) "")
  then Type_ (manager inp) +:+ "::" +:+ userID inp +:+ "::" +:+ Name s
  else Type_ (manager inp) +:+ "::" +:+ Name s.

Definition IsFIPSCapable (inp : managedInput) : bool :=
  match asFIPSAwareInput (input inp) with
  | Some fipsAware => v2.IsFIPSCapable fipsAware
  | None => true
  end.

(** The error both recover handlers build:
    [fmt.Errorf("input panic with: %+v\n%s", v, debug.Stack())]. *)
Definition panic_error (v : PanicValue) (stack : string) : error :=
  ErrorsNew ("input panic with: " +:+ format_v v +:+ newline +:+ stack).

Definition recover_handler (log : v2.logp_Logger) (v : PanicValue) (stack : string)
    : Go (option error) :=
  let err := panic_error v stack in
  emit (EvLogError log ("Input crashed with: " +:+ Error err)) >>
  ret (Some err).

Definition testSource (inp : managedInput) (ctx : v2.TestContext) (source : Source)
    : Go (option error) :=
  recover (recover_handler (v2.TestLogger ctx))
    ([EvInputTest source], Test (input inp) source ctx).

Definition runSource (env : Env) (inp : managedInput) (ctx : v2.Context)
    (st : store_t) (source : Source) (pipeline : v2.PipelineConnector)
    : Go (option error) :=
  recover (recover_handler (v2.Logger ctx))
    (emit (EvConnectWith pipeline) >>
     match ConnectWith env pipeline (clientConfig ctx) with
     | inr err => ret (Some err)
     | inl client =>
         defer (EvClose client)
           (let resourceKey := createSourceID inp source in
            match lock env ctx resourceKey with
            | inr err => ret (Some err)
            | inl resource =>
                emit (EvLocked resource) >>
                defer (EvReleaseResource resource)
                  (emit (EvUpdateTTL st resource (cleanTimeout inp)) >>
                   let cursor := makeCursor st resource in
                   let publisher :=
                     {| canceler := v2.Cancelation ctx; client := client;
                        cursor_ := cursor |} in
                   ([EvInputRun ctx source],
                    Run (input inp) ctx source cursor publisher))
            end)
     end).

(** [fmt.Errorf(prefix + "%w", err)] *)
Definition fmt_Errorf_w (prefix : string) (err : option error) : error :=
  match err with
  | Some e => ErrorfW prefix e
  | None => ErrorsNew (prefix +:+ "%!w(<nil>)")
  end.

(** *** Goroutines: [unison.MultiErrGroup], [Test] and [Run] *)

(** The function literal a goroutine runs, with the point it has reached:
    the closure of [Test], the closure of [Run] before [runSource], and the
    closure of [Run] once [runSource] has returned [err] (at the test
    [err != nil], the deferred [cancelMetrics] still pending). *)
Inductive closure : Type :=
  | TestFn (source : Source)
  | RunFn (source : Source)
  | RunFnReturned (source : Source) (err : option error).

(** A goroutine started by [grp.Go(fn)]: [fn] is running; [fn] has returned
    and the group has yet to record the error; the error is recorded and
    [wg.Done()] was called; or a panic left [fn] and kills the process. *)
Inductive goroutine : Type :=
  | GoCall (fn : closure)
  | GoReturned (err : option error)
  | GoDone (err : option error)
  | GoPanicked (v : PanicValue) (stack : string).

(** The state the goroutines share: the group with its [errs] slice, whether
    the [cancel] function [Run] got from [context.WithCancel] was called, and
    the calls made so far. *)
Record group : Type := {
  goroutines : list goroutine;
  errs : list error;
  cancelled : bool;
  trace : list event;
}.

Definition inpCtxID (ctx : v2.Context) (source : Source) : string :=
  v2.ID ctx +:+ "::" +:+ Name source.

(** [Run] replaces [ctx.Cancelation] by the child context it derives. *)
Definition cancelCtx (ctx : v2.Context) : v2.Canceler :=
  v2.WithCancel (v2.Cancelation ctx).

Definition withCancelation (ctx : v2.Context) (c : v2.Canceler) : v2.Context :=
  {| v2.Logger := v2.Logger ctx;
     v2.ID := v2.ID ctx;
     v2.IDWithoutName := v2.IDWithoutName ctx;
     v2.Name := v2.Name ctx;
     v2.Agent := v2.Agent ctx;
     v2.Cancelation := c;
     v2.StatusReporter := v2.StatusReporter ctx;
     v2.MetricsRegistry := v2.MetricsRegistry ctx |}.

(** The per-worker context [inpCtx] and connector [pc] built in the closure
    of [Run]; [ctx] is the context as [Run] holds it at that point. *)
Definition workerContext (ctx : v2.Context) (pipeline : v2.PipelineConnector)
    (source : Source) : v2.Context * v2.PipelineConnector :=
  let inpCtxID := inpCtxID ctx source in
  let log := v2.With (v2.Logger ctx) "input_source" (Name source) in
  let '(reg, pc) :=
    v2.PrepareInputMetrics inpCtxID (v2.Name ctx) (v2.MetricsRegistry ctx) pipeline log in
  ({| v2.ID := inpCtxID;
      v2.IDWithoutName := v2.ID ctx;
      v2.Name := v2.Name ctx;
      v2.Agent := v2.Agent ctx;
      v2.Cancelation := v2.Cancelation ctx;
      v2.StatusReporter := v2.StatusReporter ctx;
      v2.MetricsRegistry := reg;
      v2.Logger := log |}, pc).

Section Group.
Variable env : Env.
Variable inp : managedInput.
Variable tctx : v2.TestContext.
Variable ctx : v2.Context.
Variable pipeline : v2.PipelineConnector.

(** The call [inp.runSource(inpCtx, inp.manager.store, source, pc)]. *)
Definition worker_runSource (source : Source) : Go (option error) :=
  let '(inpCtx, pc) :=
    workerContext (withCancelation ctx (cancelCtx ctx)) pipeline source in
  runSource env inp inpCtx (store (manager inp)) source pc.

(** One step of a running function literal: the calls it makes, the state
    of its goroutine afterwards, and whether it called [cancel]. *)
Definition fn_step (fn : closure) : list event * goroutine * bool :=
  match fn with
  | TestFn source =>
      match testSource inp tctx source with
      | (t, Normal err) => (t, GoReturned err, false)
      | (t, Panicking v stack) => (t, GoPanicked v stack, false)
      end
  | RunFn source =>
      match worker_runSource source with
      | (t, Normal err) => (t, GoCall (RunFnReturned source err), false)
      | (t, Panicking v stack) =>
          (t ++ [EvCancelMetrics (inpCtxID ctx source)], GoPanicked v stack, false)
      end
  | RunFnReturned source (Some err) =>
      ([EvCancel; EvCancelMetrics (inpCtxID ctx source)], GoReturned (Some err), true)
  | RunFnReturned source None =>
      ([EvCancelMetrics (inpCtxID ctx source)], GoReturned None, false)
  end.

(** The error a goroutine adds to [g.errs]: nothing for nil. *)
Definition recorded (err : option error) : list error :=
  match err with Some e => [e] | None => [] end.

(** Goroutine [i] takes its next step, if it has one. *)
Definition step_at (i : nat) (g : group) : option group :=
  match goroutines g !! i with
  | Some (GoCall fn) =>
      let '(t, next, cancel) := fn_step fn in
      Some {| goroutines := <[i := next]> (goroutines g);
              errs := errs g;
              cancelled := cancelled g || cancel;
              trace := trace g ++ t |}
  | Some (GoReturned err) =>
      Some {| goroutines := <[i := GoDone err]> (goroutines g);
              errs := errs g ++ recorded err;
              cancelled := cancelled g;
              trace := trace g |}
  | Some (GoDone _) | Some (GoPanicked _ _) | None => None
  end.

Definition step (g g' : group) : Prop := ∃ i, step_at i g = Some g'.

Definition is_done (r : goroutine) : bool :=
  match r with GoDone _ => true | _ => false end.

(** [grp.Wait()]: blocks until every goroutine called [wg.Done()], then
    yields the recorded errors. *)
Definition Wait (g : group) : option (list error) :=
  if forallb is_done (goroutines g) then Some (errs g) else None.

Definition start (fn : Source → closure) : group :=
  {| goroutines := map (λ source, GoCall (fn source)) (sources inp);
     errs := [];
     cancelled := false;
     trace := [] |}.

(** [Test]: the value returned once [Wait] lets it go on. *)
Definition Test_return (g : group) : option (option error) :=
  errs ← Wait g;
  Some (if 0 <? length errs
        then Some (fmt_Errorf_w "input tests failed: " (errors_Join errs))
        else None).

(** [Run]: the value returned once [Wait] lets it go on (the deferred
    [cancel] runs after that). *)
Definition Run_return (g : group) : option (option error) :=
  errs ← Wait g;
  Some (if 0 <? length errs
        then Some (fmt_Errorf_w ("input " +:+ v2.ID ctx +:+ " failed: ")
                     (errors_Join errs))
        else None).

(** What a call returned, once it has returned. *)
Definition result_of (m : Go (option error)) : option error :=
  match m.2 with
  | Normal err => err
  | Panicking _ _ => None
  end.

(** The error (or nil) the worker of a source hands back to the group. *)
Definition test_result (source : Source) : option error :=
  result_of (testSource inp tctx source).

Definition run_result (source : Source) : option error :=
  result_of (worker_runSource source).

(** The error a goroutine is bound to report, read off its state; the
    errors it has recorded in the group; the number of steps it has left;
    whether its function literal has returned an error. *)
Definition eventual (r : goroutine) : option error :=
  match r with
  | GoCall (TestFn source) => test_result source
  | GoCall (RunFn source) => run_result source
  | GoCall (RunFnReturned _ err) => err
  | GoReturned err => err
  | GoDone err => err
  | GoPanicked _ _ => None
  end.

Definition done_errs (r : goroutine) : list error :=
  match r with
  | GoDone err => recorded err
  | _ => []
  end.

Definition weight (r : goroutine) : nat :=
  match r with
  | GoCall (RunFn _) => 3
  | GoCall (TestFn _) => 2
  | GoCall (RunFnReturned _ _) => 2
  | GoReturned _ => 1
  | GoDone _ => 0
  | GoPanicked _ _ => 0
  end.

Definition steps_left (g : group) : nat := sum_list (map weight (goroutines g)).

Definition failed (r : goroutine) : bool :=
  match r with
  | GoReturned (Some _) | GoDone (Some _) => true
  | _ => false
  end.


Definition is_panicked (r : goroutine) : bool :=
  match r with
  | GoPanicked _ _ => true
  | _ => false
  end.

(** The group holds the errors of the goroutines that are done. *)
Definition errs_recorded (g : group) : Prop :=
  errs g ≡ₚ concat (map done_errs (goroutines g)).

(** No goroutine ever dies of a panic. *)
Definition no_panic (g : group) : Prop :=
  ∀ i r, goroutines g !! i = Some r → is_panicked r = false.


(** [inp.Test(ctx)] may return [r]: some interleaving of the goroutines
    started for the sources leads to a state where [Wait] returns. *)
Definition Test_returns (r : option error) : Prop :=
  ∃ g, rtc step (start TestFn) g ∧ Test_return g = Some r.

Definition Run_returns (r : option error) : Prop :=
  ∃ g, rtc step (start RunFn) g ∧ Run_return g = Some r.

(** A scheduler: the goroutines take steps in the order the list gives;
    entries naming a goroutine that cannot step are skipped. *)
Fixpoint schedule (order : list nat) (g : group) : group :=
  match order with
  | [] => g
  | i :: rest =>
      match step_at i g with
      | Some g' => schedule rest g'
      | None => schedule rest g
      end
  end.

End Group.

End cursor.

(** ** Package beater (filebeat/beater/crawler_fips.go) *)

Module beater.

(** [cfgfile.Runner]: its [String()] and the outcome of the type assertion
    [runner.(v2.FIPSAwareInput)] ([None] when the assertion fails). *)
Record Runner : Type := {
  String_ : string;
  asFIPSAwareInput : option v2.FIPSAwareInput;
}.

Definition checkFIPSCapability (runner : Runner) : option error :=
  match asFIPSAwareInput runner with
  | None => None
  | Some fipsAwareInput =>
      if v2.IsFIPSCapable fipsAwareInput then None
      else Some (ErrorsNew
                   ("running a FIPS-capable distribution but input [" +:+
                    String_ runner +:+ "] is not FIPS capable"))
  end.

End beater.

(** ** A configuration to run the definitions on *)

Module scenario.
Import cursor.

Definition A : Source := {| Name := "A" |}.
Definition B : Source := {| Name := "B" |}.
Definition C : Source := {| Name := "C" |}.

(** A source type whose [Test] and [Run] fail on [A], succeed on [B] and
    panic on [C]. *)
Definition behaviour (source : Source) : exec (option error) :=
  if String.eqb (Name source) "A" then Normal (Some (ErrorsNew "A: permission denied"))
  else if String.eqb (Name source) "C"
       then Panicking (PanicString "index out of range") "goroutine 7 [running]"
       else Normal None.

Definition source_type : Input :=
  {| InputName := "journald";
     Test := λ source _, behaviour source;
     Run := λ _ source _ _, behaviour source;
     asFIPSAwareInput := None |}.

Definition managed (uid : string) (srcs : list Source) : managedInput :=
  {| manager := {| Type_ := "journald"; store := 0 |};
     userID := uid;
     sources := srcs;
     input := source_type;
     cleanTimeout := 0%Z |}.

Definition inp : managedInput := managed "my-id" [A; B; C].

Definition env : Env :=
  {| ConnectWith := λ _ _, inl 1;
     lock := λ _ resourceKey, inl {| key := resourceKey |} |}.

Definition ctx : v2.Context :=
  {| v2.Logger := {| v2.labels := [] |};
     v2.ID := "journald-my-id";
     v2.IDWithoutName := "";
     v2.Name := "journald";
     v2.Agent := {| v2.Beat := "filebeat"; v2.Version := "9.0.0" |};
     v2.Cancelation := v2.BeatCanceler 0;
     v2.StatusReporter := None;
     v2.MetricsRegistry := v2.RootRegistry 0 |}.

Definition tctx : v2.TestContext :=
  {| v2.TestLogger := {| v2.labels := [] |};
     v2.TestAgent := {| v2.Beat := "filebeat"; v2.Version := "9.0.0" |};
     v2.TestCancelation := v2.BeatCanceler 0 |}.

Definition pipeline : v2.PipelineConnector := v2.Pipeline 0.

Definition panic_C : error :=
  panic_error (PanicString "index out of range") "goroutine 7 [running]".

End scenario.

(** ** Reading traces *)

Module traces.
Import cursor.

(** The clients closed in a trace, the sources whose source-type [Run] was
    called, the sources whose source-type [Test] was called. *)
Definition closed (t : list event) : list Client :=
  omap (λ e, match e with EvClose c => Some c | _ => None end) t.

Definition ran (t : list event) : list Source :=
  omap (λ e, match e with EvInputRun _ source => Some source | _ => None end) t.

Definition tested (t : list event) : list Source :=
  omap (λ e, match e with EvInputTest source => Some source | _ => None end) t.

(** The events a validation may produce: the call of the source-type [Test]
    and the log entry of the recover handler. *)
Definition is_test_event (e : event) : bool :=
  match e with
  | EvInputTest _ | EvLogError _ _ => true
  | _ => false
  end.

(** The source a goroutine has still to work on, if its function literal
    has not got to it yet. *)
Definition pending_test (r : goroutine) : list Source :=
  match r with
  | GoCall (TestFn source) => [source]
  | _ => []
  end.

Definition pending_run (r : goroutine) : list Source :=
  match r with
  | GoCall (RunFn source) => [source]
  | _ => []
  end.

(** Goroutines started by [Test] never run the function literal of [Run]. *)
Definition is_run_call (r : goroutine) : bool :=
  match r with
  | GoCall (RunFn _) | GoCall (RunFnReturned _ _) => true
  | _ => false
  end.

(** What holds of every state [Test] reaches: only validations run, nobody
    calls [cancel], and the calls made are those of validations. *)
Definition test_inv (g : group) : Prop :=
  (∀ i r, goroutines g !! i = Some r → is_run_call r = false) ∧
  cancelled g = false ∧
  Forall (λ e, is_test_event e = true) (trace g).

(** What holds of every state [Run] reaches: the source-type [Run] was
    called for some of the configured sources, once for each lock taken, and
    [cancel] was not called unless a function literal returned an error. *)
Definition run_inv (srcs : list Source) (g : group) : Prop :=
  ran (trace g) ++ concat (map pending_run (goroutines g)) ⊆+ srcs ∧
  length (ran (trace g)) = length (locked (trace g)) ∧
  (cancelled g = true → ∃ i r, goroutines g !! i = Some r ∧ failed r = true).

End traces.

(** ** Status updates and pipeline metrics (filebeat/input/v2/input.go) *)

Module status.

(** [status.Status], by what its [String()] prints. *)
Definition Status : Type := string.

(** The calls [UpdateStatus] makes: a debug line on the logger of the
    context, and the update handed to the reporter. *)
Inductive call : Type :=
  | Debugf (log : v2.logp_Logger) (msg : string)
  | ReporterUpdateStatus (reporter : nat) (status : Status) (msg : string).

Definition UpdateStatus (c : v2.Context) (status : Status) (msg : string) : list call :=
  match v2.StatusReporter c with
  | Some reporter =>
      [Debugf (v2.Logger c)
         ("updating status, status: '" +:+ status +:+ "', message: '" +:+ msg +:+ "'");
       ReporterUpdateStatus reporter status msg]
  | None => []
  end.

(** The updates that reach a reporter. *)
Definition reported (cs : list call) : list (nat * Status * string) :=
  omap (λ c, match c with
             | ReporterUpdateStatus reporter status msg => Some (reporter, status, msg)
             | Debugf _ _ => None
             end) cs.

End status.

Module listener.

(** [monitoring.Uint]: a 64-bit counter; [Inc] adds one and wraps. *)
Definition uint64_modulus : N := 2 ^ 64.
Definition Inc (u : N) : N := ((u + 1) mod uint64_modulus)%N.

Record PipelineClientListener : Type := {
  eventsTotal : N;
  eventsFiltered : N;
  eventsPublished : N;
}.

(** [NewPipelineClientListener]: three new counters, at zero. *)
Definition NewPipelineClientListener : PipelineClientListener :=
  {| eventsTotal := 0; eventsFiltered := 0; eventsPublished := 0 |}.

(** The methods of [beat.ClientListener]. *)
Inductive callback : Type :=
  | Closing
  | Closed
  | NewEvent
  | Filtered
  | Published
  | DroppedOnPublish.

Definition notify (i : PipelineClientListener) (cb : callback) : PipelineClientListener :=
  match cb with
  | Closing | Closed | DroppedOnPublish => i
  | NewEvent =>
      {| eventsTotal := Inc (eventsTotal i);
         eventsFiltered := eventsFiltered i;
         eventsPublished := eventsPublished i |}
  | Filtered =>
      {| eventsTotal := eventsTotal i;
         eventsFiltered := Inc (eventsFiltered i);
         eventsPublished := eventsPublished i |}
  | Published =>
      {| eventsTotal := eventsTotal i;
         eventsFiltered := eventsFiltered i;
         eventsPublished := Inc (eventsPublished i) |}
  end.

(** The pipeline calls the listener again and again. *)
Definition notify_all (i : PipelineClientListener) (cbs : list callback)
    : PipelineClientListener :=
  foldl notify i cbs.

Definition is_NewEvent (cb : callback) : bool :=
  match cb with NewEvent => true | _ => false end.
Definition is_Filtered (cb : callback) : bool :=
  match cb with Filtered => true | _ => false end.
Definition is_Published (cb : callback) : bool :=
  match cb with Published => true | _ => false end.

(** How many of the calls satisfy [p]. *)
Definition count (p : callback → bool) (cbs : list callback) : nat :=
  length (List.filter p cbs).

End listener.

(** ** The registry of autodiscover providers (package autodiscover) *)

Module autodiscover.

(** A [ProviderBuilder] is a function value, told apart by its identity; the
    nil function is [None]. *)
Definition ProviderBuilder : Type := nat.

(** The [providers] map of the registry (its mutex makes each method one
    atomic operation). *)
Record registry : Type := { providers : gmap string ProviderBuilder }.

Definition AddProvider (r : registry) (name : string) (provider : option ProviderBuilder)
    : registry * option error :=
  if String.eqb name "" then (r, Some (ErrorsNew "provider name is required"))
  else
    match providers r !! name with
    | Some _ => (r, Some (ErrorsNew ("provider '" +:+ name +:+ "' is already registered")))
    | None =>
        match provider with
        | None =>
            (r, Some (ErrorsNew ("provider '" +:+ name +:+
                                 "' cannot be registered with a nil factory")))
        | Some p => ({| providers := <[name := p]> (providers r) |}, None)
        end
    end.

(** [strings.ToLower] on strings of ASCII characters. *)
Definition lower_ascii (c : Ascii.ascii) : Ascii.ascii :=
  let n := Ascii.nat_of_ascii c in
  if (65 <=? n) && (n <=? 90) then Ascii.ascii_of_nat (n + 32) else c.

Fixpoint ToLower_ascii (s : string) : string :=
  match s with
  | EmptyString => EmptyString
  | String c rest => String (lower_ascii c) (ToLower_ascii rest)
  end.

Section Lookup.
(** [strings.ToLower], for all strings. *)
Variable ToLower : string → string.

Definition GetProvider (r : registry) (name : string) : option ProviderBuilder :=
  providers r !! ToLower name.

(** The configuration as unpacked, and a UUID. *)
Record ProviderConfig : Type := { Type_ : string }.
Definition UUID : Type := N.

(** [BuildProvider] ends with an error of its own, or hands over to a
    builder: [Built builder beatName uuid] is the call
    [builder(beatName, bus, uuid, c, keystore, r.logger)], whose results it
    returns.  [unpack] is what [c.Unpack] gives and [newV4] what
    [uuid.NewV4()] gives. *)
Inductive build : Type :=
  | BuildError (err : error)
  | Built (builder : ProviderBuilder) (beatName : string) (uuid : UUID).

Definition BuildProvider (r : registry) (beatName : string)
    (unpack : ProviderConfig + error) (newV4 : UUID + error) : build :=
  match unpack with
  | inr err => BuildError err
  | inl config =>
      match GetProvider r (Type_ config) with
      | None => BuildError (ErrorsNew ("unknown autodiscover provider " +:+ Type_ config))
      | Some builder =>
          match newV4 with
          | inr err => BuildError err
          | inl uuid => Built builder beatName uuid
          end
      end
  end.

End Lookup.

(** A run of registrations, one after the other. *)
Definition AddProviders (r : registry) (calls : list (string * option ProviderBuilder))
    : registry :=
  foldl (λ r call, (AddProvider r call.1 call.2).1) r calls.

End autodiscover.

(** ** Collaborators that refuse *)

Module refusals.
Import cursor.

(** A pipeline that is shutting down, and a store whose lock wait was
    cancelled. *)
Definition closing : error := ErrorsNew "pipeline is closing".
Definition stopped : error := ErrorsNew "context canceled".

Definition env_no_pipeline : Env :=
  {| ConnectWith := λ _ _, inr closing;
     lock := λ _ resourceKey, inl {| key := resourceKey |} |}.

Definition env_no_lock : Env :=
  {| ConnectWith := λ _ _, inl 1;
     lock := λ _ _, inr stopped |}.


End refusals.

(** ** The decode_csv_fields processor
       (libbeat/processors/decode_csv_fields/decode_csv_fields.go) *)

Module decode_csv_fields.

Record csvConfig : Type := {
  IgnoreMissing : bool;
  TrimLeadingSpace : bool;
  OverwriteKeys : bool;
  FailOnError : bool;
}.

(** The processor: its configuration, the source-to-destination map and the
    separator rune. *)
Record decodeCSVFields : Type := {
  config : csvConfig;
  fields : gmap string string;
  separator : N;
}.

Section Processor.
(** The event and its collaborators are parameters: [beat.Event] as a value,
    the values it stores, [event.GetValue] and [event.PutValue] (the event
    after the call and the error), [errors.Is(err, mapstr.ErrKeyNotFound)],
    the type assertion [data.(string)], and the first record a lazy-quotes
    [csv.Reader] with the given comma and trim flag reads. *)
Variable Event : Type.
Variable Value : Type.
Variable GetValue : Event → string → Value + error.
Variable PutValue : Event → string → list string → Event * option error.
Variable isKeyNotFound : error → bool.
Variable asString : Value → option string.
Variable Read : N → bool → string → list string + error.

Definition has_value (event : Event) (key : string) : bool :=
  match GetValue event key with inl _ => true | inr _ => false end.

(** [decodeCSVField]: the event after the call, and the error. *)
Definition decodeCSVField (f : decodeCSVFields) (src dest : string) (event : Event)
    : Event * option error :=
  match GetValue event src with
  | inr err =>
      if IgnoreMissing (config f) && isKeyNotFound err then (event, None)
      else (event, Some (ErrorfW ("could not fetch value for field " +:+ src +:+ ": ") err))
  | inl data =>
      match asString data with
      | None => (event, Some (ErrorsNew ("field " +:+ src +:+ " is not of string type")))
      | Some text =>
          match Read (separator f) (TrimLeadingSpace (config f)) text with
          | inr err =>
              (event, Some (ErrorfW ("error decoding CSV from field " +:+ src +:+ ": ") err))
          | inl record =>
              if negb (String.eqb src dest) && negb (OverwriteKeys (config f)) &&
                 has_value event dest
              then (event,
                    Some (ErrorsNew
                            ("target field " +:+ dest +:+
                             " already has a value. Set the overwrite_keys flag or drop/rename the field first")))
              else
                match PutValue event dest record with
                | (event', Some err) =>
                    (event', Some (ErrorfW ("failed setting field " +:+ dest +:+ ": ") err))
                | (event', None) => (event', None)
                end
          end
      end
  end.

(** The loop of [Run] over the entries of [f.fields] in the order the
    runtime picks; [saved] is the clone taken before the loop. *)
Fixpoint Run_loop (f : decodeCSVFields) (order : list (string * string))
    (saved event : Event) : Event * option error :=
  match order with
  | [] => (event, None)
  | (src, dest) :: rest =>
      match decodeCSVField f src dest event with
      | (event', Some err) =>
          if FailOnError (config f) then (saved, Some err)
          else Run_loop f rest saved event'
      | (event', None) => Run_loop f rest saved event'
      end
  end.

Definition Run_in_order (f : decodeCSVFields) (order : list (string * string))
    (event : Event) : Event * option error :=
  Run_loop f order event event.

(** [Run] may return [result]: for some order of the entries of the map. *)
Definition Run_returns (f : decodeCSVFields) (event : Event)
    (result : Event * option error) : Prop :=
  ∃ order, order ≡ₚ map_to_list (fields f) ∧ Run_in_order f order event = result.

(** All fields decoded one after the other, errors ignored. *)
Definition decode_all (f : decodeCSVFields) (order : list (string * string))
    (event : Event) : Event :=
  foldl (λ e field, (decodeCSVField f field.1 field.2 e).1) event order.

End Processor.

(** An event as a flat map from keys to strings or records, and a reader
    that cuts the text at the separator, to run the processor on. *)
Definition flat_event : Type := gmap string (string + list string).

Definition flat_GetValue (event : flat_event) (k : string)
    : (string + list string) + error :=
  match event !! k with
  | Some v => inl v
  | None => inr (ErrorsNew "key not found")
  end.

Definition flat_PutValue (event : flat_event) (k : string) (record : list string)
    : flat_event * option error :=
  (<[k := inr record]> event, None).

Definition flat_asString (v : string + list string) : option string :=
  match v with inl text => Some text | inr _ => None end.

Fixpoint cut (sep : Ascii.ascii) (text field : string) : list string :=
  match text with
  | EmptyString => [field]
  | String c rest =>
      if Ascii.eqb c sep then field :: cut sep rest ""
      else cut sep rest (field +:+ String c "")
  end.

Definition flat_Read (comma : N) (trim : bool) (text : string) : list string + error :=
  if (comma =? 0)%N then inr (ErrorsNew "csv: invalid field or comment delimiter")
  else inl (cut (Ascii.ascii_of_N comma) text "").

Definition comma_processor (fail_on_error : bool) : decodeCSVFields :=
  {| config := {| IgnoreMissing := false; TrimLeadingSpace := false;
                  OverwriteKeys := false; FailOnError := fail_on_error |};
     fields := {["message" := "csv"]};
     separator := 44 |}.

End decode_csv_fields.

(** * Properties *)

(** ** The acknowledgment handler *)

Section ACKHandler.
Import ACK.

(** The callback on three small batches. *)
Example ack_batch_without_updateOp :
  inputACKHandler 2 [INil; IOther "metadata"] = Returns [].
Proof. reflexivity. Qed.

Example ack_batch_all_updateOps :
  inputACKHandler 3 [IUpdateOp 10; IUpdateOp 11; IUpdateOp 12] = Returns [Execute 12 3].
Proof. reflexivity. Qed.

Example ack_batch_mixed :
  inputACKHandler 5 [IUpdateOp 10; INil; IUpdateOp 11; IOther "metadata"; INil] =
    Returns [Execute 11 2].
Proof. reflexivity. Qed.

Lemma uint_incr_wrap (n c : N) :
  ((uint_incr n + c) mod uint_modulus = (n + (1 + c)) mod uint_modulus)%N.
Proof.
  unfold uint_incr. rewrite N.Div0.add_mod_idemp_l. f_equal. lia.
Qed.

(** The loop computes the (wrapped) number of update operations and the
    index of the last one; [last] keeps its value when there is none. *)
Lemma scan_spec (rest : list iface) (i : nat) (n : N) (last : nat) :
  (n < uint_modulus)%N →
  scan rest i n last =
    (((n + N.of_nat (count_updateOps rest)) mod uint_modulus)%N,
     match last_index rest with Some k => i + k | None => last end).
Proof.
  revert i n last. induction rest as [|p rest IH]; intros i n last Hn.
  - cbn. rewrite N.add_0_r, N.mod_small by done. done.
  - destruct p as [|op|dyn]; cbn [scan last_index is_updateOp count_updateOps].
    + rewrite IH by done.
      destruct (last_index rest); f_equal; try lia; f_equal; lia.
    + rewrite IH by (by apply N.mod_lt).
      rewrite uint_incr_wrap.
      destruct (last_index rest); f_equal; try lia; f_equal; lia.
    + rewrite IH by done.
      destruct (last_index rest); f_equal; try lia; f_equal; lia.
Qed.

Lemma count_updateOps_le (private : list iface) :
  count_updateOps private ≤ length private.
Proof. induction private as [|p rest IH]; cbn; [done|]. destruct (is_updateOp p); lia. Qed.

Lemma last_index_lookup (private : list iface) (k : nat) :
  last_index private = Some k →
  ∃ op, highest_updateOp private k op.
Proof.
  revert k. induction private as [|p rest IH]; intros k; [done|].
  cbn. destruct (last_index rest) as [k'|] eqn:Hrest.
  - intros [= <-]. destruct (IH k' eq_refl) as (op & Hop & Hafter).
    exists op. split; [done|]. intros [|j] q Hj; [lia|]. cbn.
    apply Hafter. lia.
  - destruct p as [|op|dyn]; cbn; try done. intros [= <-].
    exists op. split; [done|]. intros [|j] q Hj; [lia|]. cbn. intros Hq.
    clear IH Hj. revert j Hq. induction rest as [|r rest IH]; intros j Hq; [done|].
    cbn in Hrest. destruct (last_index rest) eqn:E; [done|].
    destruct j as [|j]; cbn in Hq.
    + injection Hq as ->. by destruct (is_updateOp q).
    + by eapply IH.
Qed.

Lemma last_index_None (private : list iface) :
  last_index private = None ↔ no_updateOp private.
Proof.
  unfold no_updateOp. induction private as [|p rest IH]; cbn.
  - split; [|done]. intros _ p Hp. by apply elem_of_nil in Hp.
  - destruct (last_index rest) as [k|].
    + split; [done|]. intros Hall. exfalso.
      assert (Some k = None); [|done]. apply IH. intros q Hq.
      apply Hall. by right.
    + destruct (is_updateOp p) eqn:Hp.
      * split; [done|]. intros Hall. specialize (Hall p). rewrite Hp in Hall.
        discriminate Hall. by left.
      * split; [|done]. intros _ q [->|Hq]%elem_of_cons; [done|].
        by apply IH.
Qed.

Lemma highest_updateOp_unique (private : list iface) i op j op' :
  highest_updateOp private i op → highest_updateOp private j op' →
  i = j ∧ op = op'.
Proof.
  intros [Hi Hafter] [Hj Hafter'].
  destruct (decide (i = j)) as [->|Hne].
  - split; [done|]. congruence.
  - destruct (decide (i < j)).
    + by specialize (Hafter j _ ltac:(done) Hj).
    + by specialize (Hafter' i _ ltac:(lia) Hi).
Qed.

Lemma count_updateOps_zero (private : list iface) :
  count_updateOps private = 0 ↔ no_updateOp private.
Proof.
  unfold no_updateOp. induction private as [|p rest IH]; cbn.
  - split; [|done]. intros _ p Hp. by apply elem_of_nil in Hp.
  - destruct (is_updateOp p) eqn:Hp; cbn.
    + split; [done|]. intros Hall. specialize (Hall p). rewrite Hp in Hall.
      discriminate Hall. by left.
    + rewrite IH. split.
      * intros Hall q [->|Hq]%elem_of_cons; [done|]. by apply Hall.
      * intros Hall q Hq. apply Hall. by right.
Qed.

Lemma count_fits_uint (private : list iface) :
  slice_len_ok private →
  (N.of_nat (count_updateOps private) mod uint_modulus =
   N.of_nat (count_updateOps private))%N.
Proof.
  unfold slice_len_ok. intros Hlen. apply N.mod_small.
  pose proof (count_updateOps_le private) as Hle.
  assert (MaxInt < uint_modulus)%N by (by vm_compute). lia.
Qed.

(** The callback in closed form, for slices of admissible length. *)
Lemma inputACKHandler_unfold (acked : Z) (private : list iface) :
  slice_len_ok private →
  inputACKHandler acked private =
    match last_index private with
    | None => Returns []
    | Some k =>
        match private !! k with
        | Some (IUpdateOp op) =>
            Returns [Execute op (N.of_nat (count_updateOps private))]
        | _ => Panics
        end
    end.
Proof.
  intros Hlen. unfold inputACKHandler.
  rewrite scan_spec by (by vm_compute).
  rewrite N.add_0_l, count_fits_uint by done. cbn [Nat.add].
  destruct (last_index private) as [k|] eqn:Hk.
  - destruct (last_index_lookup _ _ Hk) as (op & Hop & _).
    destruct (N.eqb_spec (N.of_nat (count_updateOps private)) 0) as [Hz|_]; [|done].
    exfalso. assert (Hnone : last_index private = None); [|congruence].
    apply last_index_None, count_updateOps_zero. lia.
  - apply last_index_None, count_updateOps_zero in Hk. by rewrite Hk.
Qed.

(** C1 (amended): on an acknowledged batch without any update operation the
    callback does nothing; otherwise it makes exactly one call, [Execute] on
    the update operation of highest index, and the argument [n] is the
    number of update operations in the batch (not the number of
    acknowledged events). *)
Theorem ack_handler_commits_last (acked : Z) (private : list iface) :
  slice_len_ok private →
  (no_updateOp private → inputACKHandler acked private = Returns []) ∧
  (∀ i op, highest_updateOp private i op →
     inputACKHandler acked private =
       Returns [Execute op (N.of_nat (count_updateOps private))]).
Proof.
  intros Hlen. rewrite inputACKHandler_unfold by done. split.
  - intros Hnone%last_index_None. by rewrite Hnone.
  - intros i op Hhigh. destruct (last_index private) as [k|] eqn:Hk.
    + destruct (last_index_lookup _ _ Hk) as (op' & Hhigh').
      destruct (highest_updateOp_unique _ _ _ _ _ Hhigh Hhigh') as [-> ->].
      destruct Hhigh' as [-> _]. done.
    + apply last_index_None in Hk. destruct Hhigh as [Hi _].
      apply list_elem_of_lookup_2, Hk in Hi. done.
Qed.

Lemma ack_handler_commits_last_witness :
  inputACKHandler 4 [IUpdateOp 5; INil; IUpdateOp 9; IOther "x"] =
    Returns [Execute 9 2].
Proof.
  refine (proj2 (ack_handler_commits_last 4
            [IUpdateOp 5; INil; IUpdateOp 9; IOther "x"] _) 2 9 _).
  - by vm_compute.
  - split; [reflexivity|].
    intros [|[|[|[|j]]]] p Hj Hp; try lia; cbn in Hp; by simplify_eq.
Defined.

(** C1 as stated fails: two events are acknowledged, the second carries the
    only update operation, and [Execute] receives 1, which is neither the
    number of acknowledged events nor the length of the batch. *)
Lemma ack_handler_n_not_event_count :
  let acked := 2%Z in
  let private := [INil; IUpdateOp 7] in
  slice_len_ok private ∧
  highest_updateOp private 1 7 ∧
  inputACKHandler acked private = Returns [Execute 7 1] ∧
  inputACKHandler acked private ≠ Returns [Execute 7 (Z.to_N acked)] ∧
  inputACKHandler acked private ≠ Returns [Execute 7 (N.of_nat (length private))].
Proof.
  cbn zeta. split; [by vm_compute|]. split; [|by vm_compute].
  split; [reflexivity|].
  intros [|[|j]] p Hj Hp; try lia; cbn in Hp; by simplify_eq.
Qed.

(** The callback never panics, whatever the batch. *)
Lemma ack_handler_no_panic (acked : Z) (private : list iface) :
  slice_len_ok private → inputACKHandler acked private ≠ Panics.
Proof.
  intros Hlen. rewrite inputACKHandler_unfold by done.
  destruct (last_index private) as [k|] eqn:Hk; [|done].
  destruct (last_index_lookup _ _ Hk) as (op & -> & _). done.
Qed.

(** C9: when the batch holds at least one update operation, the index the
    loop leaves in [last] is the index of an update operation (nil slots and
    slots of other types are never selected), the counter is not zero, and
    the callback returns after calling [Execute] on that operation: the type
    assertion on [private[last]] does not panic. *)
Theorem ack_handler_last_is_updateOp (acked : Z) (private : list iface) :
  slice_len_ok private →
  (∃ p, p ∈ private ∧ is_updateOp p = true) →
  ∃ op,
    private !! (scan private 0 0%N 0).2 = Some (IUpdateOp op) ∧
    (scan private 0 0%N 0).1 ≠ 0%N ∧
    inputACKHandler acked private = Returns [Execute op (scan private 0 0%N 0).1].
Proof.
  intros Hlen (p & Hin & Hp).
  pose proof (inputACKHandler_unfold acked private Hlen) as Hunf.
  rewrite scan_spec in * by (by vm_compute).
  rewrite N.add_0_l, count_fits_uint in * by done. cbn [fst snd Nat.add].
  destruct (last_index private) as [k|] eqn:Hk.
  - destruct (last_index_lookup _ _ Hk) as (op & Hop & _).
    rewrite Hop in Hunf. exists op. split; [done|]. split; [|done].
    intros Hz. assert (Hnone : last_index private = None); [|congruence].
    apply last_index_None, count_updateOps_zero. lia.
  - apply last_index_None in Hk. apply Hk in Hin. congruence.
Qed.

Lemma ack_handler_last_is_updateOp_witness :
  ∃ op,
    [INil; IUpdateOp 3; IOther "meta"; INil] !! 1 = Some (IUpdateOp op) ∧
    inputACKHandler 4 [INil; IUpdateOp 3; IOther "meta"; INil] =
      Returns [Execute op 1].
Proof.
  destruct (ack_handler_last_is_updateOp 4
              [INil; IUpdateOp 3; IOther "meta"; INil]) as (op & H1 & _ & H2).
  - by vm_compute.
  - exists (IUpdateOp 3). split; [|reflexivity]. apply (list_elem_of_lookup_2 _ 1). reflexivity.
  - exists op. split; [exact H1 | exact H2].
Defined.

End ACKHandler.

(** ** Resource keys and the FIPS capability *)

Section Identity.
Import cursor.

(** C7: the resource key is [type::userID::name] when the user id is not
    empty and [type::name] when it is, and it depends on nothing but the
    input type, the user id and the source name. *)
Theorem createSourceID_deterministic (inp : managedInput) (s : Source) :
  (userID inp ≠ "" →
     createSourceID inp s =
       Type_ (manager inp) +:+ "::" +:+ userID inp +:+ "::" +:+ Name s) ∧
  (userID inp = "" →
     createSourceID inp s = Type_ (manager inp) +:+ "::" +:+ Name s) ∧
  (∀ inp' s',
     Type_ (manager inp') = Type_ (manager inp) →
     userID inp' = userID inp →
     Name s' = Name s →
     createSourceID inp' s' = createSourceID inp s).
Proof.
  unfold createSourceID. split; [|split].
  - intros Hne. destruct (String.eqb_spec (userID inp) ""); [done|]. done.
  - intros ->. done.
  - intros inp' s' -> -> ->. done.
Qed.

Lemma createSourceID_deterministic_witness :
  createSourceID (scenario.managed "my-id" []) {| Name := "LOCAL_SYSTEM_JOURNAL" |} =
    "journald::my-id::LOCAL_SYSTEM_JOURNAL" ∧
  createSourceID (scenario.managed "" []) {| Name := "LOCAL_SYSTEM_JOURNAL" |} =
    "journald::LOCAL_SYSTEM_JOURNAL" ∧
  createSourceID (scenario.managed "my-id" [{| Name := "other" |}])
      {| Name := "LOCAL_SYSTEM_JOURNAL" |} =
    createSourceID (scenario.managed "my-id" []) {| Name := "LOCAL_SYSTEM_JOURNAL" |}.
Proof.
  split; [|split].
  - apply (proj1 (createSourceID_deterministic
                    (scenario.managed "my-id" []) {| Name := "LOCAL_SYSTEM_JOURNAL" |})).
    discriminate.
  - apply (proj1 (proj2 (createSourceID_deterministic
                    (scenario.managed "" []) {| Name := "LOCAL_SYSTEM_JOURNAL" |}))).
    reflexivity.
  - apply (proj2 (proj2 (createSourceID_deterministic
                    (scenario.managed "my-id" []) {| Name := "LOCAL_SYSTEM_JOURNAL" |})));
      reflexivity.
Defined.

(** C8: the check returns nil exactly for a runner that does not implement
    the capability interface or reports itself capable, and an error exactly
    for one that implements it and reports not capable; a managed input
    whose source-type input does not implement the interface reports
    capable. *)
Theorem fips_capability_check (runner : beater.Runner) (inp : managedInput) :
  (beater.checkFIPSCapability runner = None ↔
     beater.asFIPSAwareInput runner = None ∨
     ∃ f, beater.asFIPSAwareInput runner = Some f ∧ v2.IsFIPSCapable f = true) ∧
  (is_Some (beater.checkFIPSCapability runner) ↔
     ∃ f, beater.asFIPSAwareInput runner = Some f ∧ v2.IsFIPSCapable f = false) ∧
  (asFIPSAwareInput (input inp) = None → IsFIPSCapable inp = true) ∧
  (∀ f, asFIPSAwareInput (input inp) = Some f →
        IsFIPSCapable inp = v2.IsFIPSCapable f).
Proof.
  unfold beater.checkFIPSCapability, IsFIPSCapable.
  destruct (beater.asFIPSAwareInput runner) as [[b]|]; cbn.
  - destruct b; (split; [|split; [|split]]).
    + split; [|done]. intros _. right. by eexists.
    + split; [by intros [? ?]|]. intros (f & [= <-] & Hf). done.
    + by intros ->.
    + by intros f ->.
    + split; [done|]. intros [?|(f & [= <-] & Hf)]; done.
    + split; [|by eexists]. intros _. by eexists.
    + by intros ->.
    + by intros f ->.
  - split; [|split; [|split]].
    + split; [|done]. by left.
    + split; [by intros [? ?]|]. by intros (f & ? & _).
    + by intros ->.
    + by intros f ->.
Qed.

Lemma fips_capability_check_witness :
  IsFIPSCapable (scenario.managed "" []) = true.
Proof.
  apply (proj1 (proj2 (proj2 (fips_capability_check
           {| beater.String_ := "input [type=journald]";
              beater.asFIPSAwareInput := None |}
           (scenario.managed "" []))))).
  reflexivity.
Defined.

End Identity.

(** ** One worker: [runSource] and [testSource] *)

(** Case analysis on membership in an explicit trace. *)
Ltac in_trace H :=
  repeat match type of H with
         | _ ∈ [] => by apply elem_of_nil in H
         | _ ∈ _ :: _ => apply elem_of_cons in H as [H|H]
         end;
  by simplify_eq.

(** The same, to read off what the member is. *)
Ltac in_trace_eq H :=
  repeat match type of H with
         | _ ∈ [] => by apply elem_of_nil in H
         | _ ∈ _ :: _ => apply elem_of_cons in H as [H|H]
         end;
  simplify_eq; done.

Section Worker.
Import cursor.

Lemma released_app (t t' : list event) :
  released (t ++ t') = released t ++ released t'.
Proof. apply omap_app. Qed.

Lemma locked_app (t t' : list event) : locked (t ++ t') = locked t ++ locked t'.
Proof. apply omap_app. Qed.

(** [runSource] when the client connects and the lock is acquired: the
    calls made, and the result for each way the source-type [Run] ends. *)
Lemma runSource_locked (env : Env) (inp : managedInput) (ctx : v2.Context)
    (st : store_t) (source : Source) (pipeline : v2.PipelineConnector)
    (c : Client) (r : resource) :
  ConnectWith env pipeline (clientConfig ctx) = inl c →
  lock env ctx (createSourceID inp source) = inl r →
  let publisher :=
    {| canceler := v2.Cancelation ctx; client := c; cursor_ := makeCursor st r |} in
  let body :=
    [EvConnectWith pipeline; EvLocked r; EvUpdateTTL st r (cleanTimeout inp);
     EvInputRun ctx source; EvReleaseResource r; EvClose c] in
  runSource env inp ctx st source pipeline =
    match Run (input inp) ctx source (makeCursor st r) publisher with
    | Normal err => (body, Normal err)
    | Panicking v stack =>
        (body ++ [EvLogError (v2.Logger ctx)
                    ("Input crashed with: " +:+ Error (panic_error v stack))],
         Normal (Some (panic_error v stack)))
    end.
Proof.
  intros Hc Hl. cbn zeta. unfold runSource. rewrite Hc, Hl.
  by destruct (Run _ _ _ _ _).
Qed.

(** No path of [runSource] lets a panic out. *)
Lemma runSource_returns (env : Env) (inp : managedInput) (ctx : v2.Context)
    (st : store_t) (source : Source) (pipeline : v2.PipelineConnector) :
  ∃ err, (runSource env inp ctx st source pipeline).2 = Normal err.
Proof.
  unfold runSource. destruct (ConnectWith env pipeline _) as [c|e]; [|by eexists].
  destruct (lock env ctx _) as [r|e]; [|by eexists].
  cbn. destruct (Run _ _ _ _ _); by eexists.
Qed.

Lemma testSource_returns (inp : managedInput) (ctx : v2.TestContext) (source : Source) :
  ∃ err, (testSource inp ctx source).2 = Normal err.
Proof. unfold testSource. cbn. destruct (Test _ _ _); by eexists. Qed.

(** Whatever happens, [runSource] releases what it locked. *)
Lemma runSource_balanced (env : Env) (inp : managedInput) (ctx : v2.Context)
    (st : store_t) (source : Source) (pipeline : v2.PipelineConnector) :
  released (runSource env inp ctx st source pipeline).1 =
  locked (runSource env inp ctx st source pipeline).1.
Proof.
  unfold runSource. destruct (ConnectWith env pipeline _) as [c|e]; [|done].
  destruct (lock env ctx _) as [r|e]; [|done].
  cbn. by destruct (Run _ _ _ _ _).
Qed.

(** Without the lock nothing is released. *)
Lemma runSource_not_locked (env : Env) (inp : managedInput) (ctx : v2.Context)
    (st : store_t) (source : Source) (pipeline : v2.PipelineConnector) :
  (∀ r, lock env ctx (createSourceID inp source) ≠ inl r) ∨
  (∀ c, ConnectWith env pipeline (clientConfig ctx) ≠ inl c) →
  released (runSource env inp ctx st source pipeline).1 = [] ∧
  locked (runSource env inp ctx st source pipeline).1 = [].
Proof.
  unfold runSource. intros Hno.
  destruct (ConnectWith env pipeline _) as [c|e]; [|done].
  destruct (lock env ctx _) as [r|e]; [|done].
  destruct Hno as [Hno|Hno]; [by destruct (Hno r) | by destruct (Hno c)].
Qed.

(** C3: when [runSource] acquires the resource, the resource is released
    exactly once, after the source-type [Run] was left and before the client
    is closed, whichever way [Run] ends: it returns nil, it returns an
    error, or it panics.  Nothing else is released. *)
Theorem runSource_releases_once (env : Env) (inp : managedInput) (ctx : v2.Context)
    (st : store_t) (source : Source) (pipeline : v2.PipelineConnector)
    (c : Client) (r : resource) :
  ConnectWith env pipeline (clientConfig ctx) = inl c →
  lock env ctx (createSourceID inp source) = inl r →
  let t := (runSource env inp ctx st source pipeline).1 in
  locked t = [r] ∧
  released t = [r] ∧
  (∃ before after,
     t = before ++ [EvInputRun ctx source; EvReleaseResource r] ++ after ∧
     EvLocked r ∈ before ∧ released before = [] ∧ released after = []) ∧
  (∀ err, Run (input inp) ctx source (makeCursor st r)
            {| canceler := v2.Cancelation ctx; client := c;
               cursor_ := makeCursor st r |} = Normal err →
          (runSource env inp ctx st source pipeline).2 = Normal err) ∧
  (∀ v stack, Run (input inp) ctx source (makeCursor st r)
            {| canceler := v2.Cancelation ctx; client := c;
               cursor_ := makeCursor st r |} = Panicking v stack →
          (runSource env inp ctx st source pipeline).2 =
            Normal (Some (panic_error v stack))).
Proof.
  intros Hc Hl. cbn zeta.
  rewrite (runSource_locked _ _ _ _ _ _ _ _ Hc Hl).
  destruct (Run _ _ _ _ _) as [err|v stack]; cbn [fst snd].
  - split; [done|]. split; [done|]. split; [|split; [by intros ? [= ->] | done]].
    exists [EvConnectWith pipeline; EvLocked r; EvUpdateTTL st r (cleanTimeout inp)],
           [EvClose c].
    split; [done|]. split; [|done]. set_solver.
  - split; [done|]. split; [done|]. split; [|split; [done | by intros ? ? [= -> ->]]].
    exists [EvConnectWith pipeline; EvLocked r; EvUpdateTTL st r (cleanTimeout inp)],
           [EvClose c; EvLogError (v2.Logger ctx)
                        ("Input crashed with: " +:+ Error (panic_error v stack))].
    split; [done|]. split; [|done]. set_solver.
Qed.

(** The two recover handlers at work. *)
Lemma testSource_panic (inp : managedInput) (tctx : v2.TestContext) (source : Source)
    (v : PanicValue) (stack : string) :
  Test (input inp) source tctx = Panicking v stack →
  testSource inp tctx source =
    ([EvInputTest source;
      EvLogError (v2.TestLogger tctx)
        ("Input crashed with: " +:+ Error (panic_error v stack))],
     Normal (Some (panic_error v stack))).
Proof. unfold testSource. by intros ->. Qed.

Lemma testSource_normal (inp : managedInput) (tctx : v2.TestContext) (source : Source)
    (err : option error) :
  Test (input inp) source tctx = Normal err →
  testSource inp tctx source = ([EvInputTest source], Normal err).
Proof. unfold testSource. by intros ->. Qed.

(** Unfolding one step of a goroutine. *)
Section Steps.
Variable env : Env.
Variable inp : managedInput.
Variable tctx : v2.TestContext.
Variable ctx : v2.Context.
Variable pipeline : v2.PipelineConnector.

Lemma step_at_call (g : group) (i : nat) (fn : closure) :
  goroutines g !! i = Some (GoCall fn) →
  step_at env inp tctx ctx pipeline i g =
    Some {| goroutines :=
              <[i := (fn_step env inp tctx ctx pipeline fn).1.2]> (goroutines g);
            errs := errs g;
            cancelled := cancelled g || (fn_step env inp tctx ctx pipeline fn).2;
            trace := trace g ++ (fn_step env inp tctx ctx pipeline fn).1.1 |}.
Proof.
  intros Hi. unfold step_at. rewrite Hi.
  by destruct (fn_step env inp tctx ctx pipeline fn) as [[t next] cancel].
Qed.

Lemma step_at_returned (g : group) (i : nat) (err : option error) :
  goroutines g !! i = Some (GoReturned err) →
  step_at env inp tctx ctx pipeline i g =
    Some {| goroutines := <[i := GoDone err]> (goroutines g);
            errs := errs g ++ recorded err;
            cancelled := cancelled g;
            trace := trace g |}.
Proof. intros Hi. unfold step_at. by rewrite Hi. Qed.

Lemma schedule_cons (g g' : group) (i : nat) (order : list nat) :
  step_at env inp tctx ctx pipeline i g = Some g' →
  schedule env inp tctx ctx pipeline (i :: order) g =
    schedule env inp tctx ctx pipeline order g'.
Proof. intros Hstep. cbn. by rewrite Hstep. Qed.

End Steps.

Section Panic.
Variable env : Env.
Variable inp : managedInput.
Variable tctx : v2.TestContext.
Variable ctx : v2.Context.
Variable pipeline : v2.PipelineConnector.
Variable source : Source.

Let inpCtx : v2.Context :=
  (workerContext (withCancelation ctx (cancelCtx ctx)) pipeline source).1.
Let pc : v2.PipelineConnector :=
  (workerContext (withCancelation ctx (cancelCtx ctx)) pipeline source).2.

(** C4: a panic of the source-type [Test] or [Run] is stopped inside
    [testSource] and [runSource]: the function returns the error built
    from the panic value and the stack trace, whose message holds both,
    and no path of either function lets a panic out.  The goroutine
    then goes on as for any other error: the closure of [Run] calls
    [cancel], and the group records the error. *)
Theorem panic_becomes_error (c : Client) (r : resource)
    (v : PanicValue) (stack : string) :
  (Test (input inp) source tctx = Panicking v stack →
     (testSource inp tctx source).2 = Normal (Some (panic_error v stack)) ∧
     ∀ g i, goroutines g !! i = Some (GoCall (TestFn source)) →
       let g' := schedule env inp tctx ctx pipeline [i; i] g in
       goroutines g' !! i = Some (GoDone (Some (panic_error v stack))) ∧
       errs g' = errs g ++ [panic_error v stack]) ∧
  (ConnectWith env pc (clientConfig inpCtx) = inl c →
   lock env inpCtx (createSourceID inp source) = inl r →
   Run (input inp) inpCtx source (makeCursor (store (manager inp)) r)
     {| canceler := v2.Cancelation inpCtx; client := c;
        cursor_ := makeCursor (store (manager inp)) r |} = Panicking v stack →
     (runSource env inp inpCtx (store (manager inp)) source pc).2 =
       Normal (Some (panic_error v stack)) ∧
     ∀ g i, goroutines g !! i = Some (GoCall (RunFn source)) →
       let g' := schedule env inp tctx ctx pipeline [i; i; i] g in
       goroutines g' !! i = Some (GoDone (Some (panic_error v stack))) ∧
       errs g' = errs g ++ [panic_error v stack] ∧
       cancelled g' = true) ∧
  Error (panic_error v stack) =
    "input panic with: " +:+ format_v v +:+ newline +:+ stack ∧
  (∃ err, (testSource inp tctx source).2 = Normal err) ∧
  (∃ err, (runSource env inp inpCtx (store (manager inp)) source pc).2 = Normal err).
Proof.
  split; [|split; [|split; [done|split]]].
  - intros Hpanic. rewrite (testSource_panic _ _ _ _ _ Hpanic).
    split; [done|]. intros g i Hi. cbn zeta.
    assert (Hlt : i < length (goroutines g)) by by eapply lookup_lt_Some.
    erewrite schedule_cons by (by apply step_at_call).
    cbn [fn_step]. rewrite (testSource_panic _ _ _ _ _ Hpanic). cbn [fst snd].
    erewrite schedule_cons
      by (apply step_at_returned; cbn; by apply list_lookup_insert_eq).
    cbn. rewrite list_lookup_insert_eq by (by rewrite length_insert). done.
  - intros Hc Hl Hpanic.
    pose proof (runSource_locked env inp inpCtx (store (manager inp)) source pc
                  c r Hc Hl) as Hrun.
    cbn zeta in Hrun. rewrite Hpanic in Hrun. rewrite Hrun.
    split; [done|]. intros g i Hi. cbn zeta.
    assert (Hlt : i < length (goroutines g)) by by eapply lookup_lt_Some.
    assert (Hfn : fn_step env inp tctx ctx pipeline (RunFn source) =
                  ((runSource env inp inpCtx (store (manager inp)) source pc).1,
                   GoCall (RunFnReturned source (Some (panic_error v stack))),
                   false)).
    { cbn [fn_step]. unfold worker_runSource. subst inpCtx pc.
      destruct (workerContext _ pipeline source) as [inpCtx' pc'].
      cbn [fst snd] in *. by rewrite Hrun. }
    erewrite schedule_cons by (by apply step_at_call).
    rewrite Hfn. cbn [fst snd].
    erewrite schedule_cons
      by (apply step_at_call; cbn; by apply list_lookup_insert_eq).
    cbn [fn_step fst snd].
    erewrite schedule_cons
      by (apply step_at_returned; cbn;
          apply list_lookup_insert_eq; by rewrite length_insert).
    cbn. rewrite list_lookup_insert_eq by (by rewrite !length_insert).
    split; [done|]. split; [done|]. by rewrite !orb_true_r.
  - apply testSource_returns.
  - apply runSource_returns.
Qed.

End Panic.

(** C10: the context the closure of [Run] hands to [runSource] for a source
    has the parent's id followed by [::] and the source name as [ID], the
    parent's id as [IDWithoutName], and the parent's [Name], [Agent] and
    [StatusReporter]; it is the context the source-type [Run] receives. *)
Theorem worker_context_fields (env : Env) (inp : managedInput) (ctx : v2.Context)
    (pipeline : v2.PipelineConnector) (source : Source) :
  let parent := withCancelation ctx (cancelCtx ctx) in
  let inpCtx := (workerContext parent pipeline source).1 in
  let pc := (workerContext parent pipeline source).2 in
  worker_runSource env inp ctx pipeline source =
    runSource env inp inpCtx (store (manager inp)) source pc ∧
  v2.ID inpCtx = v2.ID ctx +:+ "::" +:+ Name source ∧
  v2.IDWithoutName inpCtx = v2.ID ctx ∧
  v2.Name inpCtx = v2.Name ctx ∧
  v2.Agent inpCtx = v2.Agent ctx ∧
  v2.StatusReporter inpCtx = v2.StatusReporter ctx ∧
  (∀ c s, EvInputRun c s ∈ (worker_runSource env inp ctx pipeline source).1 →
          c = inpCtx ∧ s = source).
Proof.
  cbn zeta. split; [done|]. do 5 (split; [done|]).
  intros c s. unfold worker_runSource. cbn [workerContext v2.PrepareInputMetrics].
  unfold runSource.
  destruct (ConnectWith env _ _) as [cl|e]; [|cbn; intros Hin; in_trace Hin].
  destruct (lock env _ _) as [r|e]; [|cbn; intros Hin; in_trace Hin].
  destruct (Run _ _ _ _ _); cbn; intros Hin; in_trace Hin.
Qed.

End Worker.

(** ** The goroutines of [Test] and [Run] *)

Lemma string_app_assoc (a b c : string) : (a +:+ b) +:+ c = a +:+ b +:+ c.
Proof.
  induction a as [|x a IH]; [done|].
  change (String x ((a +:+ b) +:+ c) = String x (a +:+ b +:+ c)). by rewrite IH.
Qed.

Section ListFacts.
Context {A : Type}.

Lemma sum_list_insert (f : A → nat) (l : list A) (i : nat) (x y : A) :
  l !! i = Some x →
  sum_list (map f (<[i := y]> l)) + f x = sum_list (map f l) + f y.
Proof.
  revert i. induction l as [|a l IH]; intros [|i] Hi; simplify_eq/=; [lia|].
  specialize (IH i Hi). lia.
Qed.

Lemma concat_map_insert {B} (f : A → list B) (l : list A) (i : nat) (x y : A) :
  l !! i = Some x → f x = [] →
  concat (map f (<[i := y]> l)) ≡ₚ concat (map f l) ++ f y.
Proof.
  revert i. induction l as [|a l IH]; intros [|i] Hi Hx; simplify_eq/=.
  - rewrite Hx. cbn. by rewrite Permutation_app_comm.
  - rewrite (IH i Hi Hx). by rewrite (assoc_L (++)).
Qed.

Lemma concat_map_insert_same {B} (f : A → list B) (l : list A) (i : nat) (x y : A) :
  l !! i = Some x → f x = f y →
  concat (map f (<[i := y]> l)) = concat (map f l).
Proof.
  revert i. induction l as [|a l IH]; intros [|i] Hi Hx; simplify_eq/=.
  - by rewrite Hx.
  - by rewrite (IH i Hi Hx).
Qed.

Lemma map_insert_same {B} (f : A → B) (l : list A) (i : nat) (x y : A) :
  l !! i = Some x → f y = f x → map f (<[i := y]> l) = map f l.
Proof.
  intros Hi Hxy. rewrite list_fmap_insert. change (map f l) with (f <$> l).
  apply list_insert_id. by rewrite list_lookup_fmap, Hi, Hxy.
Qed.

Lemma forallb_lookup (p : A → bool) (l : list A) :
  forallb p l = true ↔ ∀ i x, l !! i = Some x → p x = true.
Proof.
  rewrite forallb_forall. split.
  - intros H i x Hi. apply H, list_elem_of_In. by eapply list_elem_of_lookup_2.
  - intros H x [i Hi]%list_elem_of_In%list_elem_of_lookup_1. by eapply H.
Qed.

End ListFacts.

Section GroupFacts.
Import cursor.

Variable env : Env.
Variable inp : managedInput.
Variable tctx : v2.TestContext.
Variable ctx : v2.Context.
Variable pipeline : v2.PipelineConnector.

Local Abbreviation step := (step env inp tctx ctx pipeline).
Local Abbreviation step_at := (step_at env inp tctx ctx pipeline).
Local Abbreviation fn_step := (fn_step env inp tctx ctx pipeline).
Local Abbreviation eventual := (eventual env inp tctx ctx pipeline).
Local Abbreviation test_result := (test_result inp tctx).
Local Abbreviation run_result := (run_result env inp ctx pipeline).
Local Abbreviation start := (start inp).

(** The two kinds of step. *)
Lemma step_at_inv (i : nat) (g g' : group) :
  step_at i g = Some g' →
  (∃ fn, goroutines g !! i = Some (GoCall fn) ∧
         goroutines g' = <[i := (fn_step fn).1.2]> (goroutines g) ∧
         errs g' = errs g ∧
         cancelled g' = cancelled g || (fn_step fn).2) ∨
  (∃ err, goroutines g !! i = Some (GoReturned err) ∧
          goroutines g' = <[i := GoDone err]> (goroutines g) ∧
          errs g' = errs g ++ recorded err ∧
          cancelled g' = cancelled g).
Proof.
  destruct (goroutines g !! i) as [[fn|err|err|v stack]|] eqn:Hi.
  - rewrite (step_at_call _ _ _ _ _ _ _ _ Hi). intros [= <-]. left. by exists fn.
  - rewrite (step_at_returned _ _ _ _ _ _ _ _ Hi). intros [= <-]. right. by exists err.
  - unfold cursor.step_at. by rewrite Hi.
  - unfold cursor.step_at. by rewrite Hi.
  - unfold cursor.step_at. by rewrite Hi.
Qed.

(** What a function literal does in one step. *)
Lemma worker_runSource_returns (source : Source) :
  ∃ err, (worker_runSource env inp ctx pipeline source).2 = Normal err.
Proof.
  unfold worker_runSource. destruct (workerContext _ _ _) as [inpCtx pc].
  apply runSource_returns.
Qed.

Lemma fn_step_cases (fn : closure) :
  match fn with
  | TestFn source =>
      (fn_step fn).1.2 = GoReturned (test_result source) ∧ (fn_step fn).2 = false
  | RunFn source =>
      (fn_step fn).1.2 = GoCall (RunFnReturned source (run_result source)) ∧
      (fn_step fn).2 = false
  | RunFnReturned source err =>
      (fn_step fn).1.2 = GoReturned err ∧ (fn_step fn).2 = bool_decide (is_Some err)
  end.
Proof.
  destruct fn as [source|source|source [err|]]; cbn [cursor.fn_step]; try done.
  - unfold cursor.test_result, result_of.
    destruct (testSource_returns inp tctx source) as [err Herr].
    destruct (testSource inp tctx source) as [t r]. cbn in *. by subst r.
  - unfold cursor.run_result, result_of.
    destruct (worker_runSource_returns source) as [err Herr].
    destruct (worker_runSource _ _ _ _ _) as [t r]. cbn in *. by subst r.
Qed.

Lemma fn_step_eventual (fn : closure) :
  eventual (fn_step fn).1.2 = eventual (GoCall fn).
Proof.
  pose proof (fn_step_cases fn) as H.
  destruct fn as [source|source|source err]; destruct H as [-> _]; done.
Qed.

Lemma fn_step_weight (fn : closure) :
  S (weight (fn_step fn).1.2) = weight (GoCall fn).
Proof.
  pose proof (fn_step_cases fn) as H.
  destruct fn as [source|source|source err]; destruct H as [-> _]; done.
Qed.

(** Every step uses up one of the steps left: no interleaving goes on
    for ever. *)
Lemma step_steps_left (g g' : group) :
  step g g' → S (steps_left g') = steps_left g.
Proof.
  intros [i Hstep]. unfold steps_left.
  destruct (step_at_inv _ _ _ Hstep) as
    [(fn & Hi & -> & _)|(err & Hi & -> & _)].
  - pose proof (sum_list_insert weight _ _ _ (fn_step fn).1.2 Hi) as Hsum.
    pose proof (fn_step_weight fn). lia.
  - pose proof (sum_list_insert weight _ _ _ (GoDone err) Hi) as Hsum.
    cbn in Hsum. lia.
Qed.

Lemma step_sn (g : group) : sn step g.
Proof.
  remember (steps_left g) as n eqn:Hn. revert g Hn.
  induction n as [n IH] using lt_wf_ind. intros g ->.
  constructor. intros g' Hstep. cbn in Hstep.
  apply (IH (steps_left g')); [|done].
  pose proof (step_steps_left _ _ Hstep). lia.
Qed.

(** The error each goroutine is bound to report never changes. *)
Lemma step_eventual (g g' : group) :
  step g g' → map eventual (goroutines g') = map eventual (goroutines g).
Proof.
  intros [i Hstep].
  destruct (step_at_inv _ _ _ Hstep) as
    [(fn & Hi & -> & _)|(err & Hi & -> & _)].
  - eapply map_insert_same; [done|]. apply fn_step_eventual.
  - by eapply map_insert_same.
Qed.

Lemma rtc_step_eventual (g g' : group) :
  rtc step g g' → map eventual (goroutines g') = map eventual (goroutines g).
Proof.
  induction 1 as [|g1 g2 g3 Hstep _ IH]; [done|].
  by rewrite IH, (step_eventual _ _ Hstep).
Qed.

Lemma step_errs_recorded (g g' : group) :
  step g g' → errs_recorded g → errs_recorded g'.
Proof.
  unfold errs_recorded. intros [i Hstep] Hinv.
  destruct (step_at_inv _ _ _ Hstep) as
    [(fn & Hi & -> & -> & _)|(err & Hi & -> & -> & _)].
  - rewrite (concat_map_insert_same done_errs _ _ _ _ Hi); [done|].
    pose proof (fn_step_cases fn) as H.
    destruct fn as [source|source|source err]; destruct H as [-> _]; done.
  - rewrite (concat_map_insert done_errs _ _ _ (GoDone err) Hi) by done.
    by rewrite Hinv.
Qed.

Lemma rtc_step_errs_recorded (g g' : group) :
  rtc step g g' → errs_recorded g → errs_recorded g'.
Proof. induction 1; eauto using step_errs_recorded. Qed.

Lemma start_errs_recorded (fn : Source → closure) : errs_recorded (start fn).
Proof.
  unfold errs_recorded, cursor.start. cbn.
  induction (sources inp) as [|s l IH]; [done|]. done.
Qed.

Lemma step_no_panic (g g' : group) : step g g' → no_panic g → no_panic g'.
Proof.
  unfold no_panic. intros [i Hstep] Hinv j r.
  destruct (step_at_inv _ _ _ Hstep) as
    [(fn & Hi & -> & _)|(err & Hi & -> & _)].
  - destruct (decide (i = j)) as [->|Hne].
    + rewrite list_lookup_insert_eq by by eapply lookup_lt_Some.
      intros [= <-]. pose proof (fn_step_cases fn) as H.
      destruct fn as [source|source|source err]; destruct H as [-> _]; done.
    + rewrite list_lookup_insert_ne by done. apply Hinv.
  - destruct (decide (i = j)) as [->|Hne].
    + rewrite list_lookup_insert_eq by by eapply lookup_lt_Some. by intros [= <-].
    + rewrite list_lookup_insert_ne by done. apply Hinv.
Qed.

Lemma rtc_step_no_panic (g g' : group) : rtc step g g' → no_panic g → no_panic g'.
Proof. induction 1; eauto using step_no_panic. Qed.

Lemma start_no_panic (fn : Source → closure) : no_panic (start fn).
Proof.
  intros i r. unfold cursor.start. cbn. change map with (@fmap list _). rewrite list_lookup_fmap.
  destruct (sources inp !! i); by intros [= <-].
Qed.

(** No interleaving of [Test] or [Run] leaves a goroutine killed by a panic. *)
Lemma no_goroutine_panics (fn : Source → closure) (g : group) :
  rtc step (start fn) g → no_panic g.
Proof. intros Hrtc. eapply rtc_step_no_panic; [done|apply start_no_panic]. Qed.

(** Unless every goroutine is done, one of them can take a step: [Wait]
    is never stuck. *)
Lemma step_progress (g : group) :
  no_panic g → Wait g = None → ∃ g', step g g'.
Proof.
  unfold Wait. intros Hnp Hwait.
  destruct (forallb is_done (goroutines g)) eqn:Hall; [done|].
  assert (∃ i r, goroutines g !! i = Some r ∧ is_done r = false) as (i & r & Hi & Hr).
  { clear Hwait Hnp. induction (goroutines g) as [|r l IH]; [done|].
    cbn in Hall. destruct (is_done r) eqn:Hr.
    - destruct (IH Hall) as (i & r' & Hi & Hr'). by exists (S i), r'.
    - by exists 0, r. }
  pose proof (Hnp i r Hi) as Hpanic.
  destruct r as [fn|err|err|v stack]; try done.
  - eexists. exists i. by apply step_at_call.
  - eexists. exists i. by apply step_at_returned.
Qed.

Lemma reaches_Wait (g : group) :
  no_panic g → ∃ g', rtc step g g' ∧ is_Some (Wait g').
Proof.
  intros Hnp. induction (step_sn g) as [g _ IH].
  destruct (Wait g) as [es|] eqn:Hwait.
  - exists g. split; [done|]. by rewrite Hwait.
  - destruct (step_progress g Hnp Hwait) as [g1 Hstep].
    destruct (IH g1 Hstep (step_no_panic _ _ Hstep Hnp)) as (g' & Hrtc & Hdone).
    exists g'. split; [|done]. by econstructor.
Qed.

Lemma schedule_rtc (order : list nat) (g : group) :
  rtc step g (schedule env inp tctx ctx pipeline order g).
Proof.
  revert g. induction order as [|i order IH]; intros g; [done|].
  cbn. destruct (step_at i g) as [g'|] eqn:Hstep; [|done].
  eapply rtc_l; [by exists i | done].
Qed.

(** When [Wait] returns, every goroutine is done with the error it was
    bound to report, and the group holds exactly the non-nil ones. *)
Lemma all_done_eventual (l : list goroutine) :
  forallb is_done l = true → l = map GoDone (map eventual l).
Proof.
  induction l as [|r l IH]; [done|]. cbn. intros [Hr Hl]%andb_true_iff.
  rewrite <-IH by done. by destruct r.
Qed.

Lemma concat_done_errs {T} (f : T → option error) (l : list T) :
  concat (map done_errs (map (λ s, GoDone (f s)) l)) = omap f l.
Proof.
  induction l as [|s l IH]; [done|]. cbn. rewrite IH. by destruct (f s).
Qed.

Lemma Wait_final (fn : Source → closure) (g : group) (es : list error) :
  rtc step (start fn) g → Wait g = Some es →
  goroutines g = map (λ s, GoDone (eventual (GoCall (fn s)))) (sources inp) ∧
  es = errs g ∧
  es ≡ₚ omap (λ s, eventual (GoCall (fn s))) (sources inp).
Proof.
  intros Hrtc Hwait. unfold Wait in Hwait.
  destruct (forallb is_done (goroutines g)) eqn:Hall; [|done].
  injection Hwait as <-.
  pose proof (rtc_step_eventual _ _ Hrtc) as Hev.
  pose proof (rtc_step_errs_recorded _ _ Hrtc (start_errs_recorded fn)) as Hrec.
  assert (Hg : goroutines g =
               map (λ s, GoDone (eventual (GoCall (fn s)))) (sources inp)).
  { rewrite (all_done_eventual _ Hall), Hev. unfold cursor.start. cbn.
    by rewrite !map_map. }
  split; [done|]. split; [done|].
  unfold errs_recorded in Hrec. by rewrite Hrec, Hg, concat_done_errs.
Qed.

Lemma omap_nil_iff {T} (f : T → option error) (l : list T) :
  omap f l = [] ↔ ∀ s, s ∈ l → f s = None.
Proof.
  induction l as [|s l IH]; cbn.
  - split; [|done]. intros _ s Hs. by apply elem_of_nil in Hs.
  - destruct (f s) eqn:Hs.
    + split; [done|]. intros H. specialize (H s). rewrite Hs in H.
      discriminate H. by left.
    + rewrite IH. split.
      * intros H s' [->|Hin]%elem_of_cons; [done|]. by apply H.
      * intros H s' Hin. apply H. by right.
Qed.







(** Locks and releases pair up: in every state [Run] or [Test] can reach,
    the calls made so far release exactly the resources they locked. *)
Lemma fn_step_balanced (fn : closure) :
  released (fn_step fn).1.1 = locked (fn_step fn).1.1.
Proof.
  destruct fn as [source|source|source [err|]]; cbn [cursor.fn_step]; try done.
  - unfold testSource. by destruct (Test _ _ _).
  - unfold worker_runSource. destruct (workerContext _ _ _) as [inpCtx pc].
    pose proof (runSource_returns env inp inpCtx (store (manager inp)) source pc)
      as [err Herr].
    pose proof (runSource_balanced env inp inpCtx (store (manager inp)) source pc).
    destruct (runSource _ _ _ _ _ _) as [t r]. cbn in *. by subst r.
Qed.

Lemma step_balanced (g g' : group) :
  step g g' → released (trace g) = locked (trace g) →
  released (trace g') = locked (trace g').
Proof.
  intros [i Hstep] Hbal. unfold cursor.step_at in Hstep.
  destruct (goroutines g !! i) as [[fn|err|err|v stack]|]; try done.
  - pose proof (fn_step_balanced fn) as Hfn.
    destruct (fn_step fn) as [[t next] cancel]. injection Hstep as <-.
    cbn [trace fst snd] in *. by rewrite released_app, locked_app, Hbal, Hfn.
  - by injection Hstep as <-.
Qed.

Lemma reachable_balanced (fn : Source → closure) (g : group) :
  rtc step (start fn) g → released (trace g) = locked (trace g).
Proof.
  intros Hrtc. assert (Hstart : released (trace (start fn)) = locked (trace (start fn)))
    by done.
  revert Hstart. induction Hrtc; eauto using step_balanced.
Qed.

Lemma test_result_cases (s : Source) :
  test_result s =
    match Test (input inp) s tctx with
    | Normal err => err
    | Panicking v stack => Some (panic_error v stack)
    end.
Proof.
  unfold cursor.test_result, result_of, testSource.
  by destruct (Test (input inp) s tctx).
Qed.

(** C6: [Test] starts one goroutine per configured source, each running the
    source-type [Test] through [testSource]; whatever the interleaving, the
    goroutines run out of steps and [Wait] lets [Test] return only when all
    of them are done.  The value returned is nil exactly when every source
    validated with nil; otherwise it is one error wrapping the join of the
    failures of all sources (in the order the goroutines finished). *)
Theorem Test_joins_failures (g : group) :
  rtc step (start TestFn) g →
  sn step g ∧
  (∃ r, Test_returns env inp tctx ctx pipeline r) ∧
  (Test_return g = None → ∃ g', step g g') ∧
  ∀ r, Test_return g = Some r →
    goroutines g = map (λ s, GoDone (test_result s)) (sources inp) ∧
    (r = None ↔ ∀ s, s ∈ sources inp → test_result s = None) ∧
    (r = None ↔ ∀ s, s ∈ sources inp → Test (input inp) s tctx = Normal None) ∧
    (∀ e, r = Some e →
       ∃ failures,
         failures ≡ₚ omap test_result (sources inp) ∧
         e = ErrorfW "input tests failed: " (ErrorsJoin failures) ∧
         Unwrap e = Some (ErrorsJoin failures)).
Proof.
  intros Hrtc. split; [apply step_sn|]. split; [|split].
  - destruct (reaches_Wait _ (start_no_panic TestFn)) as (g' & Hrtc' & [es Hes]).
    eexists. exists g'. split; [done|]. unfold Test_return. by rewrite Hes.
  - unfold Test_return. intros Hnone. apply step_progress.
    + eapply rtc_step_no_panic; [done|apply start_no_panic].
    + by destruct (Wait g).
  - intros r. unfold Test_return. destruct (Wait g) as [es|] eqn:Hwait; [|done].
    cbn. intros [= <-].
    destruct (Wait_final _ _ _ Hrtc Hwait) as (Hg & _ & Hperm).
    change (goroutines g = map (λ s, GoDone (test_result s)) (sources inp)) in Hg.
    change (es ≡ₚ omap test_result (sources inp)) in Hperm.
    split; [done|].
    assert (Hnil : es = [] ↔ ∀ s, s ∈ sources inp → test_result s = None).
    { rewrite <-omap_nil_iff. split.
      - intros ->. by apply Permutation_nil_l in Hperm.
      - intros Hn. rewrite Hn in Hperm. by apply Permutation_nil_r in Hperm. }
    destruct es as [|e0 es]; cbn.
    + split; [by rewrite <-Hnil|]. split.
      * split; [|done]. intros _ s Hs.
        pose proof (proj1 Hnil eq_refl s Hs) as Hres.
        rewrite test_result_cases in Hres. by destruct (Test _ _ _); subst.
      * done.
    + split; [|split].
      * split; [done|]. intros Hall. by apply Hnil in Hall.
      * split; [done|]. intros Hall. exfalso.
        assert (e0 :: es = []); [|done]. apply Hnil. intros s Hs.
        by rewrite test_result_cases, (Hall s Hs).
      * intros e [= <-]. by exists (e0 :: es).
Qed.

(** C5: [Run] returns only when every goroutine it started is done, and
    whatever the interleaving it gets there.  It returns nil when every
    worker returned nil; when some worker returned an error it returns one
    error whose message starts with the id of the input and that wraps the
    join of the errors of all workers that failed. *)
Theorem Run_joins_failures (g : group) :
  rtc step (start RunFn) g →
  sn step g ∧
  (∃ r, Run_returns env inp tctx ctx pipeline r) ∧
  (Run_return ctx g = None → ∃ g', step g g') ∧
  ∀ r, Run_return ctx g = Some r →
    goroutines g = map (λ s, GoDone (run_result s)) (sources inp) ∧
    ((∀ s, s ∈ sources inp → run_result s = None) → r = None) ∧
    ((∃ s, s ∈ sources inp ∧ run_result s ≠ None) →
       ∃ failures,
         failures ≡ₚ omap run_result (sources inp) ∧
         r = Some (ErrorfW ("input " +:+ v2.ID ctx +:+ " failed: ")
                     (ErrorsJoin failures)) ∧
         (∀ e, r = Some e →
            Unwrap e = Some (ErrorsJoin failures) ∧
            Error e = "input " +:+ v2.ID ctx +:+ " failed: " +:+
                      join_lines (map Error failures))).
Proof.
  intros Hrtc. split; [apply step_sn|]. split; [|split].
  - destruct (reaches_Wait _ (start_no_panic RunFn)) as (g' & Hrtc' & [es Hes]).
    eexists. exists g'. split; [done|]. unfold Run_return. by rewrite Hes.
  - unfold Run_return. intros Hnone. apply step_progress.
    + eapply rtc_step_no_panic; [done|apply start_no_panic].
    + by destruct (Wait g).
  - intros r. unfold Run_return. destruct (Wait g) as [es|] eqn:Hwait; [|done].
    cbn. intros [= <-].
    destruct (Wait_final _ _ _ Hrtc Hwait) as (Hg & _ & Hperm).
    change (goroutines g = map (λ s, GoDone (run_result s)) (sources inp)) in Hg.
    change (es ≡ₚ omap run_result (sources inp)) in Hperm.
    split; [done|].
    assert (Hnil : es = [] ↔ ∀ s, s ∈ sources inp → run_result s = None).
    { rewrite <-omap_nil_iff. split.
      - intros ->. by apply Permutation_nil_l in Hperm.
      - intros Hn. rewrite Hn in Hperm. by apply Permutation_nil_r in Hperm. }
    destruct es as [|e0 es]; cbn.
    + split; [done|]. intros (s & Hs & Hne). by rewrite (proj1 Hnil eq_refl s Hs) in Hne.
    + split.
      * intros Hall. by apply Hnil in Hall.
      * intros _. exists (e0 :: es). split; [done|]. split; [done|].
        intros e [= <-]. split; [done|]. cbn [Error]. by rewrite !string_app_assoc.
Qed.


End GroupFacts.

(** ** The properties at work on the sample configuration *)

Section Scenario.
Import cursor scenario.

Local Abbreviation run order fn := (schedule env inp tctx ctx pipeline order (start inp fn)).

(** The worker of [B] on its own: connect, lock, refresh the TTL, run,
    release, close. *)
Example runSource_B :
  runSource env inp ctx 0 B pipeline =
    ([EvConnectWith pipeline;
      EvLocked {| key := "journald::my-id::B" |};
      EvUpdateTTL 0 {| key := "journald::my-id::B" |} 0%Z;
      EvInputRun ctx B;
      EvReleaseResource {| key := "journald::my-id::B" |};
      EvClose 1],
     Normal None).
Proof. reflexivity. Qed.

(** [Wait] holds [Run] back while a goroutine is not done. *)
Example Run_waits : Run_return ctx (run [0; 0; 0; 2; 2; 2; 1] RunFn) = None.
Proof. reflexivity. Qed.

Example Run_message :
  match Run_return ctx (run [0; 0; 0; 2; 2; 2; 1; 1; 1] RunFn) with
  | Some (Some e) => Error e
  | _ => ""
  end =
    "input journald-my-id failed: A: permission denied" +:+ newline +:+
    "input panic with: index out of range" +:+ newline +:+
    "goroutine 7 [running]".
Proof. reflexivity. Qed.

(** The worker of [C] panics inside the source-type [Run] after it took
    the lock: the resource is released once all the same. *)
Lemma runSource_releases_once_witness :
  released (runSource env inp ctx 0 C pipeline).1 = [{| key := "journald::my-id::C" |}] ∧
  (runSource env inp ctx 0 C pipeline).2 = Normal (Some panic_C).
Proof.
  pose proof (runSource_releases_once env inp ctx 0 C pipeline 1
                {| key := "journald::my-id::C" |} eq_refl eq_refl)
    as (_ & Hreleased & _ & _ & Hpanic).
  split; [exact Hreleased|].
  exact (Hpanic (PanicString "index out of range") "goroutine 7 [running]" eq_refl).
Defined.

Lemma panic_becomes_error_witness :
  (testSource inp tctx C).2 = Normal (Some panic_C) ∧
  errs (run [2; 2; 2] RunFn) = [panic_C] ∧
  cancelled (run [2; 2; 2] RunFn) = true.
Proof.
  pose proof (panic_becomes_error env inp tctx ctx pipeline C 1
                {| key := "journald::my-id::C" |}
                (PanicString "index out of range") "goroutine 7 [running]")
    as (Htest & Hrun & _).
  split.
  - exact (proj1 (Htest eq_refl)).
  - destruct (Hrun eq_refl eq_refl eq_refl) as [_ Hgroup].
    destruct (Hgroup (start inp RunFn) 2 eq_refl) as (_ & Herrs & Hcancel).
    split; [exact Herrs | exact Hcancel].
Defined.

Lemma worker_context_fields_witness :
  v2.ID (workerContext (withCancelation ctx (cancelCtx ctx)) pipeline A).1 =
    "journald-my-id::A" ∧
  v2.IDWithoutName (workerContext (withCancelation ctx (cancelCtx ctx)) pipeline A).1 =
    "journald-my-id".
Proof.
  pose proof (worker_context_fields env inp ctx pipeline A)
    as (_ & HID & HIDWithoutName & _).
  split; [exact HID | exact HIDWithoutName].
Defined.

(** All three validations have run; the failure of [A] and the panic of
    [C] are both in the error [Test] returns. *)
Lemma Test_joins_failures_witness :
  ∃ failures,
    failures ≡ₚ [ErrorsNew "A: permission denied"; panic_C] ∧
    Test_return (run [2; 0; 1; 2; 1; 0] TestFn) =
      Some (Some (ErrorfW "input tests failed: " (ErrorsJoin failures))).
Proof.
  destruct (Test_joins_failures env inp tctx ctx pipeline
              (run [2; 0; 1; 2; 1; 0] TestFn) (schedule_rtc _ _ _ _ _ _ _))
    as (_ & _ & _ & Hreturn).
  destruct (Hreturn (Some (ErrorfW "input tests failed: "
                             (ErrorsJoin [panic_C; ErrorsNew "A: permission denied"])))
              eq_refl) as (_ & _ & _ & Hjoin).
  destruct (Hjoin _ eq_refl) as (failures & Hperm & Heq & _).
  exists failures. split; [exact Hperm|].
  injection Heq as <-. reflexivity.
Defined.

(** [A] fails first; [B] is still running when [cancel] is called; [Run]
    returns the joined error once all three are done. *)
Lemma Run_joins_failures_witness :
  ∃ failures,
    failures ≡ₚ [ErrorsNew "A: permission denied"; panic_C] ∧
    Run_return ctx (run [0; 0; 0; 2; 2; 2; 1; 1; 1] RunFn) =
      Some (Some (ErrorfW "input journald-my-id failed: " (ErrorsJoin failures))).
Proof.
  destruct (Run_joins_failures env inp tctx ctx pipeline
              (run [0; 0; 0; 2; 2; 2; 1; 1; 1] RunFn) (schedule_rtc _ _ _ _ _ _ _))
    as (_ & _ & _ & Hreturn).
  destruct (Hreturn (Some (ErrorfW "input journald-my-id failed: "
                             (ErrorsJoin [ErrorsNew "A: permission denied"; panic_C])))
              eq_refl) as (_ & _ & Hjoin).
  destruct Hjoin as (failures & Hperm & Heq & _).
  { exists A. split; [by apply (list_elem_of_lookup_2 _ 0) | discriminate]. }
  exists failures. split; [exact Hperm|].
  injection Heq as <-. reflexivity.
Defined.


End Scenario.

(** * Further properties *)

(** ** Acknowledgment batches *)

Section ACKBatches.
Import ACK.

Lemma count_updateOps_length (private : list iface) :
  count_updateOps private = length (updateOps private).
Proof.
  induction private as [|p rest IH]; [done|].
  destruct p; cbn; by rewrite ?IH.
Qed.

Lemma updateOps_app (p1 p2 : list iface) :
  updateOps (p1 ++ p2) = updateOps p1 ++ updateOps p2.
Proof. apply omap_app. Qed.

Lemma last_index_updateOps (private : list iface) :
  match last_index private with
  | Some k => ∃ op, private !! k = Some (IUpdateOp op) ∧ last (updateOps private) = Some op
  | None => updateOps private = []
  end.
Proof.
  induction private as [|p rest IH]; [done|]. cbn [last_index].
  destruct (last_index rest) as [k|].
  - destruct IH as (op & Hk & Hlast). exists op. split; [done|].
    destruct p as [|op'|dyn]; [done| |done].
    change (updateOps (IUpdateOp op' :: rest)) with (op' :: updateOps rest).
    by rewrite last_cons, Hlast.
  - destruct p as [|op|dyn]; [done| |done].
    exists op. split; [done|].
    change (updateOps (IUpdateOp op :: rest)) with (op :: updateOps rest).
    by rewrite IH.
Qed.

(** The callback in terms of the update operations of the batch alone. *)
Lemma inputACKHandler_updateOps (acked : Z) (private : list iface) :
  slice_len_ok private →
  inputACKHandler acked private =
    match last (updateOps private) with
    | None => Returns []
    | Some op => Returns [Execute op (N.of_nat (length (updateOps private)))]
    end.
Proof.
  intros Hlen. rewrite inputACKHandler_unfold by done.
  pose proof (last_index_updateOps private) as H.
  rewrite count_updateOps_length.
  destruct (last_index private) as [k|].
  - destruct H as (op & -> & ->). done.
  - by rewrite H.
Qed.

Lemma slice_len_ok_app_l {A} (p1 p2 : list A) :
  slice_len_ok (p1 ++ p2) → slice_len_ok p1.
Proof. unfold slice_len_ok. rewrite length_app. lia. Qed.

Lemma slice_len_ok_app_r {A} (p1 p2 : list A) :
  slice_len_ok (p1 ++ p2) → slice_len_ok p2.
Proof. unfold slice_len_ok. rewrite length_app. lia. Qed.

(** X1: cutting an acknowledged batch in two makes no difference to what is
    committed: the two runs of the callback pass [Execute] the same total
    [n] as one run on the whole batch, and the last operation executed is
    the same. *)
Theorem ack_batches_compose (a a1 a2 : Z) (p1 p2 : list iface) :
  slice_len_ok (p1 ++ p2) →
  executed_n (inputACKHandler a (p1 ++ p2)) =
    (executed_n (inputACKHandler a1 p1) + executed_n (inputACKHandler a2 p2))%N ∧
  executed_last (inputACKHandler a (p1 ++ p2)) =
    match executed_last (inputACKHandler a2 p2) with
    | Some op => Some op
    | None => executed_last (inputACKHandler a1 p1)
    end.
Proof.
  intros Hlen.
  rewrite !inputACKHandler_updateOps
    by eauto using slice_len_ok_app_l, slice_len_ok_app_r.
  rewrite updateOps_app, length_app.
  destruct (updateOps p2) as [|o2 l2] eqn:H2 using rev_ind.
  - rewrite app_nil_r. cbn. destruct (last (updateOps p1)); cbn; split; (done || lia).
  - clear IHl2. rewrite (assoc_L (++)), !last_snoc, !length_app. cbn.
    destruct (last (updateOps p1)) as [o1|] eqn:H1; cbn.
    + split; [lia|done].
    + apply last_None in H1. rewrite H1. cbn. split; [lia|done].
Qed.

Lemma ack_batches_compose_witness :
  executed_n (inputACKHandler 5 ([IUpdateOp 1; INil; IUpdateOp 2] ++ [INil; IUpdateOp 3])) = 3%N ∧
  executed_last (inputACKHandler 5 ([IUpdateOp 1; INil; IUpdateOp 2] ++ [INil; IUpdateOp 3])) =
    Some 3.
Proof.
  destruct (ack_batches_compose 5 3 2 [IUpdateOp 1; INil; IUpdateOp 2] [INil; IUpdateOp 3])
    as [Hn Hlast].
  - by vm_compute.
  - split; [exact Hn | exact Hlast].
Defined.

(** X2: slots that hold no update operation have no influence: the callback
    does on a batch what it does on the update operations of the batch alone.
    It makes at most one call, and [n] lies between 1 and the length of the
    batch. *)
Theorem ack_ignores_other_payloads (acked acked' : Z) (private : list iface) :
  slice_len_ok private →
  inputACKHandler acked private =
    inputACKHandler acked' (IUpdateOp <$> updateOps private) ∧
  ∃ calls, inputACKHandler acked private = Returns calls ∧ length calls ≤ 1 ∧
    ∀ op n, Execute op n ∈ calls → (1 ≤ n ≤ N.of_nat (length private))%N.
Proof.
  intros Hlen.
  assert (Hops : updateOps (IUpdateOp <$> updateOps private) = updateOps private).
  { generalize (updateOps private). intros l. unfold updateOps.
    induction l as [|o l IH]; [done|]. cbn. by rewrite IH. }
  assert (Hle : length (updateOps private) ≤ length private).
  { rewrite <-count_updateOps_length. apply count_updateOps_le. }
  assert (Hlen' : slice_len_ok (IUpdateOp <$> updateOps private)).
  { unfold slice_len_ok in *. rewrite length_fmap. lia. }
  rewrite !inputACKHandler_updateOps, Hops by done. split; [done|].
  destruct (updateOps private) as [|o l] eqn:Hl using rev_ind.
  - exists []. split; [done|]. split; [cbn; lia|]. by intros op n ?%elem_of_nil.
  - clear IHl. rewrite last_snoc. eexists. split; [done|]. split; [done|].
    intros op n Hin. apply list_elem_of_singleton in Hin. injection Hin as -> ->.
    rewrite length_app in *. cbn [length] in *. lia.
Qed.

Lemma ack_ignores_other_payloads_witness :
  inputACKHandler 4 [INil; IUpdateOp 8; IOther "meta"; IUpdateOp 9] =
    inputACKHandler 2 [IUpdateOp 8; IUpdateOp 9].
Proof.
  exact (proj1 (ack_ignores_other_payloads 4 2
                  [INil; IUpdateOp 8; IOther "meta"; IUpdateOp 9] ltac:(by vm_compute))).
Defined.

End ACKBatches.

(** ** The paths through [runSource] *)

Section RunSourcePaths.
Import cursor traces.

Variable env : Env.
Variable inp : managedInput.
Variable ctx : v2.Context.
Variable st : store_t.
Variable source : Source.
Variable pipeline : v2.PipelineConnector.

(** X3: [runSource] returns nil only when the client was connected, the
    lock taken and the source-type [Run] returned nil.  When the pipeline refuses the connection,
    [runSource] returns that error and does nothing else: no lock is asked
    for, nothing is closed.  When the lock is refused, it returns the error of
    the lock, closes the client once, and neither refreshes the TTL nor calls
    the source-type [Run] nor releases anything. *)
Theorem runSource_early_returns :
  ((runSource env inp ctx st source pipeline).2 = Normal None ↔
     ∃ c r, ConnectWith env pipeline (clientConfig ctx) = inl c ∧
            lock env ctx (createSourceID inp source) = inl r ∧
            Run (input inp) ctx source (makeCursor st r)
              {| canceler := v2.Cancelation ctx; client := c;
                 cursor_ := makeCursor st r |} = Normal None) ∧
  (∀ e, ConnectWith env pipeline (clientConfig ctx) = inr e →
     runSource env inp ctx st source pipeline = ([EvConnectWith pipeline], Normal (Some e))) ∧
  (∀ c e, ConnectWith env pipeline (clientConfig ctx) = inl c →
     lock env ctx (createSourceID inp source) = inr e →
     runSource env inp ctx st source pipeline =
       ([EvConnectWith pipeline; EvClose c], Normal (Some e))).
Proof.
  unfold runSource. split; [|split].
  - destruct (ConnectWith env pipeline _) as [c|e]; [|split; [done|by intros (? & ? & ? & _)]].
    destruct (lock env ctx _) as [r|e]; [|split; [done|by intros (? & ? & _ & ? & _)]].
    cbn. split.
    + intros Hres. exists c, r. do 2 (split; [done|]).
      by destruct (Run _ _ _ _ _) as [[err|]|v stack]; simplify_eq/=.
    + intros (c' & r' & [= <-] & [= <-] & ->). done.
  - by intros e ->.
  - by intros c e -> ->.
Qed.

(** X4: a client that was connected is closed exactly once on every path,
    panic included, and closing is the last call [runSource] makes to the
    pipeline and the store: it comes after the release of the resource. *)
Theorem runSource_closes_client_once :
  let t := (runSource env inp ctx st source pipeline).1 in
  closed t =
    match ConnectWith env pipeline (clientConfig ctx) with
    | inl c => [c]
    | inr _ => []
    end ∧
  ∀ c, ConnectWith env pipeline (clientConfig ctx) = inl c →
    ∃ before after,
      t = before ++ [EvClose c] ++ after ∧
      released before = locked before ∧
      released after = [] ∧ locked after = [] ∧ ran after = [] ∧ closed after = [].
Proof.
  cbn zeta. unfold runSource.
  destruct (ConnectWith env pipeline _) as [c|e]; [|by split].
  destruct (lock env ctx _) as [r|e].
  - destruct (Run _ _ _ _ _) as [err|v stack]; (split; [done|]);
      intros c' [= <-].
    + by exists [EvConnectWith pipeline; EvLocked r; EvUpdateTTL st r (cleanTimeout inp);
                 EvInputRun ctx source; EvReleaseResource r], [].
    + by exists [EvConnectWith pipeline; EvLocked r; EvUpdateTTL st r (cleanTimeout inp);
                 EvInputRun ctx source; EvReleaseResource r],
                [EvLogError (v2.Logger ctx)
                   ("Input crashed with: " +:+ Error (panic_error v stack))].
  - split; [done|]. intros c' [= <-]. by exists [EvConnectWith pipeline], [].
Qed.

(** X5: the source-type [Run] is called at most once, with the context and
    source [runSource] was given, and only while the resource is held: the
    lock was taken and its TTL set to the clean timeout of the input before
    the call, and the release follows it. *)
Theorem runSource_runs_under_lock :
  let t := (runSource env inp ctx st source pipeline).1 in
  length (ran t) ≤ 1 ∧
  ∀ ctx' source', EvInputRun ctx' source' ∈ t →
    ctx' = ctx ∧ source' = source ∧
    ∃ r after,
      lock env ctx (createSourceID inp source) = inl r ∧
      t = [EvConnectWith pipeline; EvLocked r; EvUpdateTTL st r (cleanTimeout inp);
           EvInputRun ctx source; EvReleaseResource r] ++ after.
Proof.
  cbn zeta. unfold runSource.
  destruct (ConnectWith env pipeline _) as [c|e];
    [|split; [cbn; lia | intros ? ? Hin; cbn in Hin; in_trace Hin]].
  destruct (lock env ctx _) as [r|e];
    [|split; [cbn; lia | intros ? ? Hin; cbn in Hin; in_trace Hin]].
  destruct (Run _ _ _ _ _) as [err|v stack]; (split; [cbn; lia|]);
    intros ctx' source' Hin; cbn in Hin;
    (assert (ctx' = ctx ∧ source' = source) as [-> ->] by in_trace_eq Hin);
    (split; [done|]; split; [done|]); exists r; eexists; (split; [done|]); reflexivity.
Qed.

End RunSourcePaths.

(** ** What [Test] and [Run] do and do not do *)

Section GroupExtras.
Import cursor traces.

Variable env : Env.
Variable inp : managedInput.
Variable tctx : v2.TestContext.
Variable ctx : v2.Context.
Variable pipeline : v2.PipelineConnector.

Local Abbreviation step := (step env inp tctx ctx pipeline).
Local Abbreviation step_at := (step_at env inp tctx ctx pipeline).
Local Abbreviation fn_step := (fn_step env inp tctx ctx pipeline).
Local Abbreviation run_result := (run_result env inp ctx pipeline).
Local Abbreviation test_result := (test_result inp tctx).
Local Abbreviation start := (start inp).

(** A step in full: the goroutine that moves, and all it changes. *)
Lemma step_at_cases (i : nat) (g g' : group) :
  step_at i g = Some g' →
  (∃ fn, goroutines g !! i = Some (GoCall fn) ∧
         goroutines g' = <[i := (fn_step fn).1.2]> (goroutines g) ∧
         trace g' = trace g ++ (fn_step fn).1.1 ∧
         cancelled g' = cancelled g || (fn_step fn).2) ∨
  (∃ err, goroutines g !! i = Some (GoReturned err) ∧
          goroutines g' = <[i := GoDone err]> (goroutines g) ∧
          trace g' = trace g ∧
          cancelled g' = cancelled g).
Proof.
  destruct (goroutines g !! i) as [[fn|err|err|v stack]|] eqn:Hi.
  - rewrite (step_at_call _ _ _ _ _ _ _ _ Hi). intros [= <-]. left. by exists fn.
  - rewrite (step_at_returned _ _ _ _ _ _ _ _ Hi). intros [= <-]. right. by exists err.
  - unfold cursor.step_at. by rewrite Hi.
  - unfold cursor.step_at. by rewrite Hi.
  - unfold cursor.step_at. by rewrite Hi.
Qed.

Lemma tested_app (t t' : list event) : tested (t ++ t') = tested t ++ tested t'.
Proof. apply omap_app. Qed.

Lemma ran_app (t t' : list event) : ran (t ++ t') = ran t ++ ran t'.
Proof. apply omap_app. Qed.

Lemma concat_map_remove {A B} (f : A → list B) (l : list A) (i : nat) (x y : A) :
  l !! i = Some x → f y = [] →
  concat (map f l) ≡ₚ f x ++ concat (map f (<[i := y]> l)).
Proof.
  revert i. induction l as [|a l IH]; intros [|i] Hi Hy; simplify_eq/=.
  - by rewrite Hy.
  - rewrite (IH i Hi Hy). by rewrite !(assoc_L (++)), (Permutation_app_comm (f a)).
Qed.

(** What the function literals call. *)
Lemma testSource_calls (source : Source) :
  tested (testSource inp tctx source).1 = [source] ∧
  Forall (λ e, is_test_event e = true) (testSource inp tctx source).1.
Proof.
  unfold testSource. destruct (Test _ _ _); cbn; split; by repeat constructor.
Qed.

Lemma runSource_calls (c : v2.Context) (st : store_t) (source : Source)
    (pc : v2.PipelineConnector) :
  tested (runSource env inp c st source pc).1 = [] ∧
  ran (runSource env inp c st source pc).1 ⊆+ [source] ∧
  length (ran (runSource env inp c st source pc).1) =
    length (locked (runSource env inp c st source pc).1).
Proof.
  unfold runSource. destruct (ConnectWith env pc _) as [cl|e];
    [|cbn; split; [done|split; [apply submseteq_nil_l|done]]].
  destruct (lock env c _) as [r|e];
    [|cbn; split; [done|split; [apply submseteq_nil_l|done]]].
  by destruct (Run _ _ _ _ _).
Qed.

Lemma fn_step_calls (fn : closure) :
  tested (fn_step fn).1.1 = pending_test (GoCall fn) ∧
  ran (fn_step fn).1.1 ⊆+ pending_run (GoCall fn) ∧
  length (ran (fn_step fn).1.1) = length (locked (fn_step fn).1.1) ∧
  pending_test (fn_step fn).1.2 = [] ∧
  pending_run (fn_step fn).1.2 = [].
Proof.
  destruct fn as [source|source|source [err|]]; cbn [cursor.fn_step]; try done.
  - destruct (testSource_calls source) as [Ht _].
    destruct (testSource_returns inp tctx source) as [err Herr].
    unfold testSource in *. by destruct (Test _ _ _).
  - unfold worker_runSource. destruct (workerContext _ _ _) as [inpCtx pc].
    destruct (runSource_calls inpCtx (store (manager inp)) source pc) as (Ht & Hr & Hl).
    destruct (runSource_returns env inp inpCtx (store (manager inp)) source pc)
      as [err Herr].
    destruct (runSource _ _ _ _ _ _) as [t r]. cbn in *. by subst r.
Qed.

(** The sources validated so far and the sources still to validate are,
    together, always the same. *)
Lemma step_tested (g g' : group) :
  step g g' →
  tested (trace g') ++ concat (map pending_test (goroutines g')) ≡ₚ
  tested (trace g) ++ concat (map pending_test (goroutines g)).
Proof.
  intros [i Hstep].
  destruct (step_at_cases _ _ _ Hstep) as
    [(fn & Hi & -> & -> & _)|(err & Hi & -> & -> & _)].
  - destruct (fn_step_calls fn) as (Ht & _ & _ & Hp & _).
    rewrite tested_app, Ht.
    rewrite (concat_map_remove pending_test _ _ _ (fn_step fn).1.2 Hi Hp).
    by rewrite (assoc_L (++)).
  - by rewrite (concat_map_insert_same pending_test _ _ _ (GoDone err) Hi).
Qed.

Lemma rtc_step_tested (g g' : group) :
  rtc step g g' →
  tested (trace g') ++ concat (map pending_test (goroutines g')) ≡ₚ
  tested (trace g) ++ concat (map pending_test (goroutines g)).
Proof.
  induction 1 as [|g1 g2 g3 Hstep _ IH]; [done|].
  by rewrite IH, (step_tested _ _ Hstep).
Qed.

Lemma all_done_pending {B} (f : goroutine → list B) (l : list goroutine) :
  (∀ err, f (GoDone err) = []) → forallb is_done l = true → concat (map f l) = [].
Proof.
  intros Hf. induction l as [|r l IH]; [done|]. cbn. intros [Hr Hl]%andb_true_iff.
  rewrite (IH Hl). destruct r; try done. by rewrite Hf.
Qed.

Lemma step_test_inv (g g' : group) : step g g' → test_inv g → test_inv g'.
Proof.
  intros [i Hstep] (Hnorun & Hc & Hev).
  destruct (step_at_cases _ _ _ Hstep) as
    [(fn & Hi & Hg & Ht & Hc')|(err & Hi & Hg & Ht & Hc')];
    unfold test_inv; rewrite Hg, Ht, Hc', Hc.
  - pose proof (Hnorun i _ Hi) as Hfn.
    destruct fn as [source|source|source err]; try done.
    pose proof (fn_step_cases env inp tctx ctx pipeline (TestFn source)) as [Hnext Hcancel].
    cbn [cursor.fn_step] in *.
    destruct (testSource_calls source) as [_ Hsrc].
    destruct (testSource inp tctx source) as [t [err|v stack]]; cbn in *; [|done].
    split; [|split; [done|by apply Forall_app]].
    intros j r. destruct (decide (i = j)) as [<-|Hne].
    + rewrite list_lookup_insert_eq by (by eapply lookup_lt_Some). by intros [= <-].
    + rewrite list_lookup_insert_ne by done. apply Hnorun.
  - split; [|done].
    intros j r. destruct (decide (i = j)) as [<-|Hne].
    + rewrite list_lookup_insert_eq by (by eapply lookup_lt_Some). by intros [= <-].
    + rewrite list_lookup_insert_ne by done. apply Hnorun.
Qed.

Lemma rtc_step_test_inv (g g' : group) : rtc step g g' → test_inv g → test_inv g'.
Proof. induction 1; eauto using step_test_inv. Qed.

Lemma start_test_inv : test_inv (start TestFn).
Proof.
  split; [|done]. intros i r. unfold cursor.start. cbn.
  change map with (@fmap list _). rewrite list_lookup_fmap.
  destruct (sources inp !! i); by intros [= <-].
Qed.

(** X6: [Test] only validates.  Whatever the interleaving, no state it
    reaches holds a call other than the source-type [Test] and the log entry
    of a recovered panic (no connection, no lock, no source-type [Run]), and
    [cancel] is never called; when [Test] returns, the source-type [Test]
    has been called exactly once for each configured source. *)
Theorem Test_only_validates (g : group) :
  rtc step (start TestFn) g →
  Forall (λ e, is_test_event e = true) (trace g) ∧
  locked (trace g) = [] ∧ ran (trace g) = [] ∧ closed (trace g) = [] ∧
  cancelled g = false ∧
  (∀ r, Test_return g = Some r → tested (trace g) ≡ₚ sources inp).
Proof.
  intros Hrtc.
  destruct (rtc_step_test_inv _ _ Hrtc start_test_inv) as (_ & Hc & Hev).
  split; [done|].
  assert (Hnone : locked (trace g) = [] ∧ ran (trace g) = [] ∧ closed (trace g) = []).
  { clear Hrtc. induction Hev as [|e t He _ IH]; [done|].
    destruct IH as (? & ? & ?). by destruct e. }
  destruct Hnone as (? & ? & ?). do 4 (split; [done|]).
  intros r Hret. unfold Test_return, Wait in Hret.
  destruct (forallb is_done (goroutines g)) eqn:Hall; [|done].
  pose proof (rtc_step_tested _ _ Hrtc) as Hperm.
  rewrite (all_done_pending pending_test _ (λ _, eq_refl) Hall), app_nil_r in Hperm.
  rewrite Hperm. unfold cursor.start. cbn.
  induction (sources inp) as [|s l IH]; [done|]. cbn. by rewrite IH.
Qed.

Lemma failed_lookup_insert (l : list goroutine) (i : nat) (x y : goroutine) :
  l !! i = Some x → (failed x = true → failed y = true) →
  (∃ j r, l !! j = Some r ∧ failed r = true) →
  ∃ j r, <[i := y]> l !! j = Some r ∧ failed r = true.
Proof.
  intros Hi Hxy (j & r & Hj & Hr). destruct (decide (i = j)) as [<-|Hne].
  - exists i, y. rewrite list_lookup_insert_eq by (by eapply lookup_lt_Some).
    split; [done|]. apply Hxy. by simplify_eq.
  - exists j, r. by rewrite list_lookup_insert_ne.
Qed.

Lemma step_run_inv (g g' : group) :
  step g g' → run_inv (sources inp) g → run_inv (sources inp) g'.
Proof.
  intros [i Hstep] (Hsub & Hlen & Hc).
  destruct (step_at_cases _ _ _ Hstep) as
    [(fn & Hi & Hg & Ht & Hc')|(err & Hi & Hg & Ht & Hc')];
    unfold run_inv; rewrite Hg, Ht, Hc'.
  - destruct (fn_step_calls fn) as (_ & Hran & Hlock & _ & Hp).
    split; [|split].
    + rewrite <-Hsub, ran_app.
      rewrite (concat_map_remove pending_run _ _ _ (fn_step fn).1.2 Hi Hp).
      rewrite <-(assoc_L (++)). apply submseteq_app; [done|].
      by apply submseteq_app.
    + rewrite ran_app, locked_app, !length_app. lia.
    + pose proof (fn_step_cases env inp tctx ctx pipeline fn) as Hfn.
      intros [Hold|Hnew]%orb_true_iff.
      * apply (failed_lookup_insert _ _ _ _ Hi); [done|by apply Hc].
      * exists i, (fn_step fn).1.2.
        rewrite list_lookup_insert_eq by (by eapply lookup_lt_Some). split; [done|].
        destruct fn as [source|source|source [err|]]; destruct Hfn as [Hn Hcl];
          rewrite Hcl in Hnew; try done; by rewrite Hn.
  - split; [|split; [done|]].
    + by rewrite (concat_map_insert_same pending_run _ _ _ (GoDone err) Hi).
    + intros Hold. apply (failed_lookup_insert _ _ _ _ Hi); [by destruct err|by apply Hc].
Qed.

Lemma rtc_step_run_inv (g g' : group) :
  rtc step g g' → run_inv (sources inp) g → run_inv (sources inp) g'.
Proof. induction 1; eauto using step_run_inv. Qed.

Lemma start_run_inv : run_inv (sources inp) (start RunFn).
Proof.
  split; [|done]. unfold cursor.start. cbn.
  induction (sources inp) as [|s l IH]; [done|]. cbn. by apply submseteq_skip.
Qed.


(** X8: when [Run] returns, every resource that was locked has been
    released, once for each time it was locked; the source-type [Run] was
    called once for each lock taken, at most once for each configured
    source, and for no other source. *)
Theorem Run_releases_all_locks (g : group) (r : option error) :
  rtc step (start RunFn) g →
  Run_return ctx g = Some r →
  released (trace g) ≡ₚ locked (trace g) ∧
  length (ran (trace g)) = length (locked (trace g)) ∧
  ran (trace g) ⊆+ sources inp.
Proof.
  intros Hrtc Hret.
  destruct (rtc_step_run_inv _ _ Hrtc start_run_inv) as (Hsub & Hlen & _).
  split; [by erewrite reachable_balanced|]. split; [done|].
  unfold Run_return, Wait in Hret.
  destruct (forallb is_done (goroutines g)) eqn:Hall; [|done].
  by rewrite (all_done_pending pending_run _ (λ _, eq_refl) Hall), app_nil_r in Hsub.
Qed.



End GroupExtras.

(** ** Keys, worker ids, status and metrics *)

Lemma string_app_inj (a b c : string) : a +:+ b = a +:+ c → b = c.
Proof.
  induction a as [|x a IH]; [done|].
  change (String x (a +:+ b) = String x (a +:+ c) → b = c).
  intros [= H]. by apply IH.
Qed.

Section Names.
Import cursor.

(** X11: for one input type and user id, the resource key tells the sources
    apart: two sources get the same key exactly when they have the same
    name. *)
Theorem createSourceID_injective (inp inp' : managedInput) (s s' : Source) :
  Type_ (manager inp) = Type_ (manager inp') →
  userID inp = userID inp' →
  (createSourceID inp s = createSourceID inp' s' ↔ Name s = Name s').
Proof.
  unfold createSourceID. intros -> ->. split; [|by intros ->].
  destruct (negb _).
  - by intros ?%string_app_inj%string_app_inj%string_app_inj%string_app_inj.
  - by intros ?%string_app_inj%string_app_inj.
Qed.

Lemma createSourceID_injective_witness :
  createSourceID (scenario.managed "my-id" []) scenario.A ≠
  createSourceID (scenario.managed "my-id" [scenario.A]) scenario.B.
Proof.
  intros Heq.
  apply (createSourceID_injective (scenario.managed "my-id" [])
           (scenario.managed "my-id" [scenario.A]) scenario.A scenario.B
           eq_refl eq_refl) in Heq.
  discriminate Heq.
Defined.

(** X12: the workers of two sources with different names get different
    context ids, different metrics registries and different pipeline
    connectors; the registry of a worker is registered on the registry of
    the input under the id of the worker, the connector wraps the pipeline
    of the input, and the logger carries the source name. *)
Theorem worker_contexts_distinct (ctx : v2.Context) (pipeline : v2.PipelineConnector)
    (s s' : Source) :
  let w := workerContext ctx pipeline s in
  let w' := workerContext ctx pipeline s' in
  (Name s ≠ Name s' →
     v2.ID w.1 ≠ v2.ID w'.1 ∧
     v2.MetricsRegistry w.1 ≠ v2.MetricsRegistry w'.1 ∧
     w.2 ≠ w'.2) ∧
  v2.MetricsRegistry w.1 =
    v2.InputRegistry (v2.ID w.1) (v2.Name ctx) (v2.MetricsRegistry ctx) ∧
  w.2 = v2.WithClientListener (v2.MetricsRegistry w.1) pipeline ∧
  v2.labels (v2.Logger w.1) = v2.labels (v2.Logger ctx) ++ [("input_source", Name s)].
Proof.
  cbn. split; [|done]. intros Hne.
  assert (Hid : inpCtxID ctx s ≠ inpCtxID ctx s').
  { unfold inpCtxID. by intros ?%string_app_inj%string_app_inj. }
  split; [done|]. split; intros [= ?]; done.
Qed.

Lemma worker_contexts_distinct_witness :
  v2.ID (workerContext scenario.ctx scenario.pipeline scenario.A).1 ≠
  v2.ID (workerContext scenario.ctx scenario.pipeline scenario.B).1.
Proof.
  exact (proj1 (proj1 (worker_contexts_distinct scenario.ctx scenario.pipeline
                         scenario.A scenario.B) ltac:(discriminate))).
Defined.

(** X13: a status update made through the context of any worker of [Run]
    reaches the reporter of the input, with the status and message given, and
    nothing else; when the input has no reporter, [UpdateStatus] makes no
    call at all, not even to the logger. *)
Theorem worker_status_reaches_reporter (ctx : v2.Context)
    (pipeline : v2.PipelineConnector) (s : Source) (st : status.Status) (msg : string) :
  let w := (workerContext (withCancelation ctx (cancelCtx ctx)) pipeline s).1 in
  status.reported (status.UpdateStatus w st msg) =
    status.reported (status.UpdateStatus ctx st msg) ∧
  (v2.StatusReporter ctx = None → status.UpdateStatus w st msg = []) ∧
  (∀ reporter, v2.StatusReporter ctx = Some reporter →
     status.reported (status.UpdateStatus w st msg) = [(reporter, st, msg)]).
Proof.
  cbn zeta. unfold status.UpdateStatus. cbn.
  destruct (v2.StatusReporter ctx) as [reporter|]; cbn.
  - split; [done|]. split; [done|]. by intros ? [= <-].
  - done.
Qed.

Lemma worker_status_reaches_reporter_witness :
  status.UpdateStatus
    (workerContext (withCancelation scenario.ctx (cancelCtx scenario.ctx))
       scenario.pipeline scenario.A).1 "Degraded" "cannot read" = [].
Proof.
  exact (proj1 (proj2 (worker_status_reaches_reporter scenario.ctx scenario.pipeline
                         scenario.A "Degraded" "cannot read")) eq_refl).
Defined.

End Names.

Section ListenerCounters.
Import listener.

Lemma Inc_iter (u : N) (k : nat) :
  (u < uint64_modulus)%N →
  Nat.iter k Inc u = ((u + N.of_nat k) mod uint64_modulus)%N.
Proof.
  intros Hu. induction k as [|k IH].
  - cbn. rewrite N.add_0_r. by rewrite N.mod_small.
  - rewrite Nat.iter_succ, IH. unfold Inc.
    rewrite N.Div0.add_mod_idemp_l. f_equal. lia.
Qed.

Lemma notify_all_counters (i : PipelineClientListener) (cbs : list callback) :
  eventsTotal (notify_all i cbs) = Nat.iter (count is_NewEvent cbs) Inc (eventsTotal i) ∧
  eventsFiltered (notify_all i cbs) =
    Nat.iter (count is_Filtered cbs) Inc (eventsFiltered i) ∧
  eventsPublished (notify_all i cbs) =
    Nat.iter (count is_Published cbs) Inc (eventsPublished i).
Proof.
  unfold notify_all, count. revert i.
  induction cbs as [|cb cbs IH]; intros i; [done|].
  cbn [foldl]. destruct (IH (notify i cb)) as (-> & -> & ->).
  destruct cb; cbn [notify List.filter is_NewEvent is_Filtered is_Published
                    eventsTotal eventsFiltered eventsPublished length];
    rewrite ?Nat.iter_succ_r; done.
Qed.

(** X14: the three pipeline metrics of an input count calls: after any
    sequence of listener calls on a new listener, [eventsTotal] is the number
    of [NewEvent] calls, [eventsFiltered] the number of [Filtered] calls and
    [eventsPublished] the number of [Published] calls (as 64-bit counters);
    [Closing], [Closed] and [DroppedOnPublish] count for nothing. *)
Theorem listener_counts_calls (cbs : list callback) :
  let i := notify_all NewPipelineClientListener cbs in
  eventsTotal i = (N.of_nat (count is_NewEvent cbs) mod uint64_modulus)%N ∧
  eventsFiltered i = (N.of_nat (count is_Filtered cbs) mod uint64_modulus)%N ∧
  eventsPublished i = (N.of_nat (count is_Published cbs) mod uint64_modulus)%N ∧
  (count is_NewEvent cbs + count is_Filtered cbs + count is_Published cbs ≤ length cbs)%nat.
Proof.
  cbn zeta.
  destruct (notify_all_counters NewPipelineClientListener cbs) as (-> & -> & ->).
  rewrite !Inc_iter by (by vm_compute). cbn [NewPipelineClientListener eventsTotal
    eventsFiltered eventsPublished]. rewrite !N.add_0_l. do 3 (split; [done|]).
  unfold count. induction cbs as [|cb cbs IH]; [done|]. destruct cb; cbn in *; lia.
Qed.

End ListenerCounters.

(** ** The registry of autodiscover providers *)

Section Providers.
Import autodiscover.

Variable ToLower : string → string.

Lemma AddProvider_cases (r : registry) (name : string) (provider : option ProviderBuilder) :
  (∃ p, name ≠ "" ∧ providers r !! name = None ∧ provider = Some p ∧
        AddProvider r name provider = ({| providers := <[name := p]> (providers r) |}, None)) ∨
  (∃ e, (name = "" ∨ is_Some (providers r !! name) ∨ provider = None) ∧
        AddProvider r name provider = (r, Some e)).
Proof.
  unfold AddProvider. destruct (String.eqb_spec name "") as [->|Hne].
  - right. eexists. split; [by left|done].
  - destruct (providers r !! name) as [q|] eqn:Hq.
    + right. eexists. split; [right; left; by eexists|done].
    + destruct provider as [p|].
      * left. by exists p.
      * right. eexists. split; [by right; right|done].
Qed.

(** X15: registrations never overwrite.  Through any run of [AddProvider]
    calls a name keeps the builder it has; the empty name never gets one; a
    builder found afterwards was there before or was offered under that name;
    a call that returns an error leaves the registry as it was; and a name
    registered once cannot be registered again. *)
Theorem AddProvider_never_overwrites (r : registry)
    (calls : list (string * option ProviderBuilder)) :
  (∀ name p, providers r !! name = Some p →
             providers (AddProviders r calls) !! name = Some p) ∧
  (providers r !! "" = None → providers (AddProviders r calls) !! "" = None) ∧
  (∀ name p, providers (AddProviders r calls) !! name = Some p →
             providers r !! name = Some p ∨ (name, Some p) ∈ calls) ∧
  (∀ name provider, (AddProvider r name provider).2 ≠ None →
                    (AddProvider r name provider).1 = r) ∧
  (∀ name provider provider',
     (AddProvider r name provider).2 = None →
     (AddProvider (AddProvider r name provider).1 name provider').2 ≠ None).
Proof.
  split; [|split; [|split; [|split]]].
  - revert r. induction calls as [|[n q] calls IH]; intros r name p Hp; [done|].
    cbn. apply IH.
    destruct (AddProvider_cases r n q) as [(p' & _ & Hfree & _ & ->)|(e & _ & ->)]; [|done].
    cbn. rewrite lookup_insert_ne; [done|]. intros ->. congruence.
  - revert r. induction calls as [|[n q] calls IH]; intros r Hnone; [done|].
    cbn. apply IH.
    destruct (AddProvider_cases r n q) as [(p' & Hne & _ & _ & ->)|(e & _ & ->)]; [|done].
    cbn. by rewrite lookup_insert_ne.
  - revert r. induction calls as [|[n q] calls IH]; intros r name p Hp; [by left|].
    cbn in Hp. apply IH in Hp as [Hp|Hin]; [|right; by right].
    destruct (AddProvider_cases r n q) as [(p' & _ & _ & -> & Heq)|(e & _ & Heq)];
      rewrite Heq in Hp; [|by left].
    cbn in Hp. destruct (decide (n = name)) as [->|Hne].
    + rewrite lookup_insert_eq in Hp. injection Hp as ->. right. by left.
    + rewrite lookup_insert_ne in Hp by done. by left.
  - intros name provider.
    by destruct (AddProvider_cases r name provider) as [(p' & _ & _ & _ & ->)|(e' & _ & ->)].
  - intros name provider provider'.
    destruct (AddProvider_cases r name provider) as [(p & Hne & _ & _ & ->)|(e & _ & ->)];
      [|done].
    intros _. cbn [fst].
    destruct (AddProvider_cases {| providers := <[name := p]> (providers r) |}
                name provider') as [(p' & _ & Hfree & _)|(e & _ & ->)]; [|done].
    cbn in Hfree. by rewrite lookup_insert_eq in Hfree.
Qed.

(** X16: looking up what was registered.  After [AddProvider] has accepted
    a builder under [name], [GetProvider] finds it under every spelling that
    [strings.ToLower] maps to [name] and answers all other names as before;
    so a builder registered under a name that is not in lower case is not
    found under that name. *)
Theorem GetProvider_after_AddProvider (r r' : registry) (name : string)
    (p : ProviderBuilder) :
  AddProvider r name (Some p) = (r', None) →
  (∀ name', ToLower name' = name → GetProvider ToLower r' name' = Some p) ∧
  (∀ name', ToLower name' ≠ name →
            GetProvider ToLower r' name' = GetProvider ToLower r name') ∧
  (ToLower name ≠ name → GetProvider ToLower r' name = GetProvider ToLower r name).
Proof.
  intros Hadd.
  destruct (AddProvider_cases r name (Some p)) as [(p' & _ & _ & [= <-] & Heq)|(e & _ & Heq)];
    rewrite Heq in Hadd; [|done].
  injection Hadd as <-. unfold GetProvider. cbn.
  split; [|split].
  - intros name' ->. apply lookup_insert_eq.
  - intros name' Hne. by rewrite lookup_insert_ne.
  - intros Hne. by rewrite lookup_insert_ne.
Qed.

(** X17: [BuildProvider] hands over to registered builders only: when it
    gets to call a builder, the configuration was unpacked, a UUID was drawn
    and the builder is the one registered under the lower-cased type, called
    with the name of the Beat and that UUID.  A type under which nothing is
    registered gives the error naming the type as it was written, whatever
    the UUID source would have answered. *)
Theorem BuildProvider_uses_registered (r : registry) (beatName : string)
    (unpack : ProviderConfig + error) (newV4 : UUID + error) :
  (∀ builder beatName' uuid,
     BuildProvider ToLower r beatName unpack newV4 = Built builder beatName' uuid →
     ∃ config, unpack = inl config ∧ newV4 = inl uuid ∧ beatName' = beatName ∧
               providers r !! ToLower (Type_ config) = Some builder) ∧
  (∀ config, unpack = inl config →
     providers r !! ToLower (Type_ config) = None →
     BuildProvider ToLower r beatName unpack newV4 =
       BuildError (ErrorsNew ("unknown autodiscover provider " +:+ Type_ config))) ∧
  (∀ err, unpack = inr err →
     BuildProvider ToLower r beatName unpack newV4 = BuildError err).
Proof.
  unfold BuildProvider, GetProvider. split; [|split].
  - intros builder beatName' uuid.
    destruct unpack as [config|err]; [|done].
    destruct (providers r !! ToLower (Type_ config)) as [b|] eqn:Hb; [|done].
    destruct newV4 as [u|err]; [|done].
    intros [= <- <- <-]. by exists config.
  - by intros config -> ->.
  - by intros err ->.
Qed.

End Providers.

Section ProvidersScenario.
Import autodiscover.

Lemma AddProvider_never_overwrites_witness :
  providers (AddProviders {| providers := {["docker" := 1]} |}
               [("docker", Some 2); ("", Some 3); ("kubernetes", Some 4)]) !! "docker" =
    Some 1.
Proof.
  exact (proj1 (AddProvider_never_overwrites {| providers := {["docker" := 1]} |}
                  [("docker", Some 2); ("", Some 3); ("kubernetes", Some 4)])
           "docker" 1 eq_refl).
Defined.

(** Registered as [Docker], looked up as [Docker]: not found. *)
Lemma GetProvider_after_AddProvider_witness :
  GetProvider ToLower_ascii
    (AddProvider {| providers := ∅ |} "Docker" (Some 7)).1 "Docker" = None.
Proof.
  pose proof (GetProvider_after_AddProvider ToLower_ascii {| providers := ∅ |}
                (AddProvider {| providers := ∅ |} "Docker" (Some 7)).1 "Docker" 7 eq_refl)
    as (_ & _ & Hcase).
  rewrite (Hcase ltac:(discriminate)). reflexivity.
Defined.

Lemma BuildProvider_uses_registered_witness :
  BuildProvider ToLower_ascii {| providers := {["docker" := 1]} |} "filebeat"
    (inl {| Type_ := "Jolokia" |}) (inl 42%N) =
    BuildError (ErrorsNew "unknown autodiscover provider Jolokia").
Proof.
  exact (proj1 (proj2 (BuildProvider_uses_registered ToLower_ascii
                         {| providers := {["docker" := 1]} |} "filebeat"
                         (inl {| Type_ := "Jolokia" |}) (inl 42%N)))
           {| Type_ := "Jolokia" |} eq_refl eq_refl).
Defined.

End ProvidersScenario.

(** ** The further properties at work on the sample configuration *)

Section FurtherScenario.
Import cursor traces scenario refusals.

Local Abbreviation run order fn := (schedule env inp tctx ctx pipeline order (start inp fn)).

Lemma runSource_early_returns_witness :
  runSource env_no_pipeline inp ctx 0 A pipeline =
    ([EvConnectWith pipeline], Normal (Some closing)) ∧
  runSource env_no_lock inp ctx 0 A pipeline =
    ([EvConnectWith pipeline; EvClose 1], Normal (Some stopped)).
Proof.
  split.
  - exact (proj1 (proj2 (runSource_early_returns env_no_pipeline inp ctx 0 A pipeline))
             closing eq_refl).
  - exact (proj2 (proj2 (runSource_early_returns env_no_lock inp ctx 0 A pipeline))
             1 stopped eq_refl eq_refl).
Defined.

Lemma runSource_closes_client_once_witness :
  closed (runSource env inp ctx 0 C pipeline).1 = [1] ∧
  closed (runSource env_no_lock inp ctx 0 C pipeline).1 = [1] ∧
  closed (runSource env_no_pipeline inp ctx 0 C pipeline).1 = [].
Proof.
  split; [|split].
  - exact (proj1 (runSource_closes_client_once env inp ctx 0 C pipeline)).
  - exact (proj1 (runSource_closes_client_once env_no_lock inp ctx 0 C pipeline)).
  - exact (proj1 (runSource_closes_client_once env_no_pipeline inp ctx 0 C pipeline)).
Defined.

Lemma runSource_runs_under_lock_witness :
  ∃ r after,
    lock env ctx (createSourceID inp B) = inl r ∧
    (runSource env inp ctx 0 B pipeline).1 =
      [EvConnectWith pipeline; EvLocked r; EvUpdateTTL 0 r (cleanTimeout inp);
       EvInputRun ctx B; EvReleaseResource r] ++ after.
Proof.
  destruct (proj2 (runSource_runs_under_lock env inp ctx 0 B pipeline) ctx B)
    as (_ & _ & r & after & Hlock & Htrace).
  - apply (list_elem_of_lookup_2 _ 3). reflexivity.
  - exists r, after. split; [exact Hlock | exact Htrace].
Defined.

Lemma Test_only_validates_witness :
  tested (trace (run [2; 0; 1; 2; 1; 0] TestFn)) ≡ₚ [A; B; C] ∧
  cancelled (run [2; 0; 1; 2; 1; 0] TestFn) = false.
Proof.
  destruct (Test_only_validates env inp tctx ctx pipeline
              (run [2; 0; 1; 2; 1; 0] TestFn) (schedule_rtc _ _ _ _ _ _ _))
    as (_ & _ & _ & _ & Hcancel & Htested).
  split; [|exact Hcancel].
  exact (Htested _ eq_refl).
Defined.


Lemma Run_releases_all_locks_witness :
  released (trace (run [0; 1; 2; 2; 1; 0; 0; 1; 2] RunFn)) ≡ₚ
    locked (trace (run [0; 1; 2; 2; 1; 0; 0; 1; 2] RunFn)) ∧
  ran (trace (run [0; 1; 2; 2; 1; 0; 0; 1; 2] RunFn)) ⊆+ [A; B; C].
Proof.
  destruct (Run_releases_all_locks env inp tctx ctx pipeline
              (run [0; 1; 2; 2; 1; 0; 0; 1; 2] RunFn) _
              (schedule_rtc _ _ _ _ _ _ _) eq_refl)
    as (Hreleased & _ & Hran).
  split; [exact Hreleased | exact Hran].
Defined.



End FurtherScenario.

(** ** The decode_csv_fields processor *)

Section DecodeCSV.
Import decode_csv_fields.

Variable Event : Type.
Variable Value : Type.
Variable GetValue : Event → string → Value + error.
Variable PutValue : Event → string → list string → Event * option error.
Variable isKeyNotFound : error → bool.
Variable asString : Value → option string.
Variable Read : N → bool → string → list string + error.

Local Abbreviation decodeCSVField :=
  (decodeCSVField Event Value GetValue PutValue isKeyNotFound asString Read).
Local Abbreviation Run_loop :=
  (Run_loop Event Value GetValue PutValue isKeyNotFound asString Read).
Local Abbreviation Run_in_order :=
  (Run_in_order Event Value GetValue PutValue isKeyNotFound asString Read).
Local Abbreviation Run_returns :=
  (Run_returns Event Value GetValue PutValue isKeyNotFound asString Read).
Local Abbreviation decode_all :=
  (decode_all Event Value GetValue PutValue isKeyNotFound asString Read).
Local Abbreviation has_value := (has_value Event Value GetValue).

Lemma decode_all_snoc (f : decodeCSVFields) (pre : list (string * string))
    (src dest : string) (event : Event) :
  decode_all f (pre ++ [(src, dest)]) event =
    (decodeCSVField f src dest (decode_all f pre event)).1.
Proof. unfold decode_csv_fields.decode_all. by rewrite foldl_app. Qed.

Lemma Run_loop_lenient (f : decodeCSVFields) (order : list (string * string))
    (saved event : Event) :
  FailOnError (config f) = false →
  Run_loop f order saved event = (decode_all f order event, None).
Proof.
  intros Hoff. revert event. induction order as [|[src dest] rest IH]; intros event; [done|].
  cbn. destruct (decodeCSVField f src dest event) as [event' [err|]]; cbn.
  - rewrite Hoff. apply IH.
  - apply IH.
Qed.

Lemma Run_loop_strict (f : decodeCSVFields) (order : list (string * string))
    (saved event : Event) :
  FailOnError (config f) = true →
  match Run_loop f order saved event with
  | (event', None) =>
      event' = decode_all f order event ∧
      ∀ pre src dest post, order = pre ++ (src, dest) :: post →
        (decodeCSVField f src dest (decode_all f pre event)).2 = None
  | (event', Some err) =>
      event' = saved ∧
      ∃ pre src dest post,
        order = pre ++ (src, dest) :: post ∧
        Run_loop f pre saved event = (decode_all f pre event, None) ∧
        (decodeCSVField f src dest (decode_all f pre event)).2 = Some err
  end.
Proof.
  intros Hon. revert event. induction order as [|[src dest] rest IH]; intros event.
  - cbn. split; [done|]. intros pre ? ? ? Heq. by destruct pre.
  - cbn [decode_csv_fields.Run_loop].
    destruct (decodeCSVField f src dest event) as [event' [err|]] eqn:Hfield.
    + rewrite Hon. split; [done|]. exists [], src, dest, rest.
      do 2 (split; [done|]). unfold decode_csv_fields.decode_all. cbn [foldl].
      by rewrite Hfield.
    + specialize (IH event').
      assert (Hstep : ∀ l, decode_all f ((src, dest) :: l) event = decode_all f l event').
      { intros l. unfold decode_csv_fields.decode_all. cbn. by rewrite Hfield. }
      destruct (Run_loop f rest saved event') as [event'' [err|]].
      * destruct IH as (-> & pre & s & d & post & -> & Hpre & Herr).
        split; [done|]. exists ((src, dest) :: pre), s, d, post.
        split; [done|]. rewrite Hstep. split; [|done].
        cbn [decode_csv_fields.Run_loop]. by rewrite Hfield.
      * destruct IH as (-> & Hall). split; [by rewrite Hstep|].
        intros [|[s0 d0] pre] s d post Heq; simplify_eq/=.
        -- unfold decode_csv_fields.decode_all. cbn [foldl]. by rewrite Hfield.
        -- rewrite Hstep. by eapply Hall.
Qed.

(** X18: with [fail_on_error] off, [Run] never returns an error, whatever the
    event and the order of the fields: every field is tried, and the event
    returned is the event after all of them. *)
Theorem Run_lenient (f : decodeCSVFields) (event : Event) (result : Event * option error) :
  FailOnError (config f) = false →
  Run_returns f event result →
  result.2 = None ∧
  ∃ order, order ≡ₚ map_to_list (fields f) ∧ result.1 = decode_all f order event.
Proof.
  intros Hoff (order & Hperm & <-). unfold decode_csv_fields.Run_in_order.
  rewrite Run_loop_lenient by done. split; [done|]. by exists order.
Qed.

(** X19: with [fail_on_error] on, [Run] is all or nothing.  An error comes
    with the event as it was handed in, and it is the error of the first
    field that fails in the order of the run; without an error every field
    was decoded without error and the event returned is the event after all
    of them. *)
Theorem Run_all_or_nothing (f : decodeCSVFields) (event event' : Event)
    (err : option error) :
  FailOnError (config f) = true →
  Run_returns f event (event', err) →
  ∃ order, order ≡ₚ map_to_list (fields f) ∧
    match err with
    | Some e =>
        event' = event ∧
        ∃ pre src dest post,
          order = pre ++ (src, dest) :: post ∧
          Run_in_order f pre event = (decode_all f pre event, None) ∧
          (decodeCSVField f src dest (decode_all f pre event)).2 = Some e
    | None =>
        event' = decode_all f order event ∧
        ∀ pre src dest post, order = pre ++ (src, dest) :: post →
          (decodeCSVField f src dest (decode_all f pre event)).2 = None
    end.
Proof.
  intros Hon (order & Hperm & Hrun). exists order. split; [done|].
  pose proof (Run_loop_strict f order event event Hon) as Hspec.
  unfold decode_csv_fields.Run_in_order in *. rewrite Hrun in Hspec. by destruct err.
Qed.

(** X20: what one field does to the event.  When [decodeCSVField] returns
    nil, either the source was missing and [ignore_missing] is set, and the
    event is untouched, or the source held a string, the reader gave a
    record and [PutValue] stored it under the destination.  A destination
    other than the source that already has a value is never written unless
    [overwrite_keys] is set, and the call fails when the source is there. *)
Theorem decodeCSVField_writes (f : decodeCSVFields) (src dest : string) (event : Event) :
  let r := decodeCSVField f src dest event in
  (r.2 = None →
     (∃ err, GetValue event src = inr err ∧ IgnoreMissing (config f) = true ∧
             isKeyNotFound err = true ∧ r.1 = event) ∨
     (∃ data text record,
        GetValue event src = inl data ∧ asString data = Some text ∧
        Read (separator f) (TrimLeadingSpace (config f)) text = inl record ∧
        PutValue event dest record = (r.1, None))) ∧
  (src ≠ dest → OverwriteKeys (config f) = false → has_value event dest = true →
     r.1 = event ∧ (has_value event src = true → r.2 ≠ None)).
Proof.
  cbn zeta. unfold decode_csv_fields.decodeCSVField, decode_csv_fields.has_value.
  split.
  - destruct (GetValue event src) as [data|err].
    + destruct (asString data) as [text|] eqn:Htext; [|done].
      destruct (Read _ _ text) as [record|err] eqn:Hread; [|done].
      destruct (_ && _); [done|].
      destruct (PutValue event dest record) as [event' [err|]] eqn:Hput; [done|].
      intros _. right. by exists data, text, record.
    + destruct (IgnoreMissing (config f)) eqn:Hi; [|done].
      destruct (isKeyNotFound err) eqn:Hk; [|done].
      intros _. left. by exists err.
  - intros Hne Hover Hdest. rewrite Hover.
    destruct (String.eqb_spec src dest) as [?|_]; [done|].
    destruct (GetValue event dest) as [v|e]; [|done]. cbn.
    destruct (GetValue event src) as [data|err].
    + destruct (asString data) as [text|]; [|done].
      by destruct (Read _ _ text) as [record|err].
    + split; [|done]. by destruct (_ && _).
Qed.

End DecodeCSV.

Section DecodeCSVScenario.
Import decode_csv_fields.

Local Abbreviation run_flat :=
  (Run_in_order flat_event (string + list string) flat_GetValue flat_PutValue
     (λ _, true) flat_asString flat_Read).
Local Abbreviation returns_flat :=
  (Run_returns flat_event (string + list string) flat_GetValue flat_PutValue
     (λ _, true) flat_asString flat_Read).

(** One line decoded into its record. *)
Example Run_decodes :
  run_flat (comma_processor true) [("message", "csv")] {["message" := inl "a,b,c"]} =
    ({["message" := inl "a,b,c"; "csv" := inr ["a"; "b"; "c"]]}, None).
Proof. by vm_compute. Qed.

Lemma message_to_csv_order (fail_on_error : bool) :
  [("message", "csv")] ≡ₚ map_to_list (fields (comma_processor fail_on_error)).
Proof. cbn. by rewrite map_to_list_singleton. Qed.

(** The source is not a string: the field fails, [Run] goes on and returns
    no error. *)
Lemma Run_lenient_witness :
  (run_flat (comma_processor false) [("message", "csv")]
     {["message" := inr ["not"; "text"]]}).2 = None.
Proof.
  refine (proj1 (Run_lenient flat_event (string + list string) flat_GetValue flat_PutValue
                   (λ _, true) flat_asString flat_Read (comma_processor false)
                   {["message" := inr ["not"; "text"]]} _ eq_refl _)).
  exists [("message", "csv")]. split; [apply message_to_csv_order | reflexivity].
Defined.

(** The destination is taken: [Run] returns the error and the event as it
    came. *)
Lemma Run_all_or_nothing_witness :
  ∃ order, order ≡ₚ map_to_list (fields (comma_processor true)) ∧
    ∃ pre src dest post, order = pre ++ (src, dest) :: post ∧
      (decodeCSVField flat_event (string + list string) flat_GetValue flat_PutValue
         (λ _, true) flat_asString flat_Read (comma_processor true) src dest
         (decode_all flat_event (string + list string) flat_GetValue flat_PutValue
            (λ _, true) flat_asString flat_Read (comma_processor true) pre
            {["message" := inl "a,b"; "csv" := inl "taken"]})).2 =
        Some (ErrorsNew "target field csv already has a value. Set the overwrite_keys flag or drop/rename the field first").
Proof.
  destruct (Run_all_or_nothing flat_event (string + list string) flat_GetValue
              flat_PutValue (λ _, true) flat_asString flat_Read (comma_processor true)
              {["message" := inl "a,b"; "csv" := inl "taken"]}
              {["message" := inl "a,b"; "csv" := inl "taken"]}
              (Some (ErrorsNew "target field csv already has a value. Set the overwrite_keys flag or drop/rename the field first"))
              eq_refl) as (order & Hperm & _ & pre & src & dest & post & Horder & _ & Herr).
  - exists [("message", "csv")]. split; [apply message_to_csv_order | by vm_compute].
  - exists order. split; [exact Hperm|]. exists pre, src, dest, post.
    split; [exact Horder | exact Herr].
Defined.

Lemma decodeCSVField_writes_witness :
  (decodeCSVField flat_event (string + list string) flat_GetValue flat_PutValue
     (λ _, true) flat_asString flat_Read (comma_processor true) "message" "csv"
     {["message" := inl "a,b"; "csv" := inl "taken"]}).1 =
    {["message" := inl "a,b"; "csv" := inl "taken"]}.
Proof.
  exact (proj1 (proj2 (decodeCSVField_writes flat_event (string + list string)
                         flat_GetValue flat_PutValue (λ _, true) flat_asString flat_Read
                         (comma_processor true) "message" "csv"
                         {["message" := inl "a,b"; "csv" := inl "taken"]})
                  ltac:(discriminate) eq_refl eq_refl)).
Defined.

End DecodeCSVScenario.
